(** * Tippet's technique: measuring a multiport device with a 2-port analyzer

    A shallow embedding of the notebook
    [doc/source/examples/metrology/Measuring a Mutiport Device with a 2-Port
    Network Analyzer.ipynb] of scikit-rf, and of the parts of the [skrf]
    library (network conversions, [connect], [renormalize]) that the notebook
    drives.

    Layout:
    - exceptions as an error monad ([result], [mapM], [foldM]);
    - [Ports]: the index bookkeeping of the composition loop ([arange],
      [combinations], the boolean masks, [where]);
    - frequency-sampled networks and numpy slice assignment, dictionaries;
    - [toolkit]: the signature of the library calls of the notebook, and
      the composition loop, [composer] and [tippits], written against it;
    - [Skrf]: the library as the design document describes it (conversions,
      [renormalize], [connect], the media), over any numeric field;
    - [Demo]: a small instance over the rationals;
    - the facts about the loop, which hold for any library, then the
      matrix algebra of Tippet's technique and the exact run on [Skrf];
    - further properties of the notebook code: the list of measurements,
      the slice assignments, the two dictionaries and their keys. *)

From HB Require Import structures.
From mathcomp Require Import boot order ssralg ssrnum ssrint rat matrix.
From mathcomp Require Import ring_tactic field_tactic.

Set Implicit Arguments.
Unset Strict Implicit.
Unset Printing Implicit Defensive.

(* ===================================================================== *)
(** ** Exceptions as results                                              *)
(* ===================================================================== *)

(** The error kinds of the design, together with the two Python built-in
    exceptions the notebook code itself can raise ([ValueError] when a tuple
    unpacking has the wrong arity, [IndexError] when an index is out of
    range). *)
Inductive error :=
  | DomainError
  | ShapeError
  | SingularityError
  | PreconditionViolation
  | ValueError
  | IndexError.

Inductive result (T : Type) :=
  | Ok of T
  | Err of error.

Arguments Err {T} e.

Definition bind (T U : Type) (r : result T) (k : T -> result U) : result U :=
  match r with
  | Ok x => k x
  | Err e => Err e
  end.

Notation "x <~ r ;; k" := (bind r (fun x => k))
  (at level 61, r at next level, right associativity).
Notation "' p <~ r ;; k" := (bind r (fun x => let p := x in k))
  (at level 61, p pattern, r at next level, right associativity).

Definition is_ok (T : Type) (r : result T) : bool :=
  if r is Ok _ then true else false.

(** Running a fallible step on every element of a list, left to right; the
    first exception aborts the whole traversal. *)
Fixpoint mapM (T U : Type) (f : T -> result U) (s : seq T) : result (seq U) :=
  match s with
  | [::] => Ok [::]
  | x :: s' => y <~ f x ;; ys <~ mapM f s' ;; Ok (y :: ys)
  end.

(** A left fold whose body may raise: the model of a [for] loop over a list
    that threads the loop state. *)
Fixpoint foldM (T S : Type) (f : S -> T -> result S) (st : S) (s : seq T)
  : result S :=
  match s with
  | [::] => Ok st
  | x :: s' => st' <~ f st x ;; foldM f st' s'
  end.

(* ===================================================================== *)
(** ** Port bookkeeping of the composition loop                           *)
(* ===================================================================== *)

Module Ports.

(** [arange(n)] *)
Definition arange (n : nat) : seq nat := iota 0 n.

(** [itertools.combinations(xs, r)]: the r-element sub-sequences of [xs], in
    lexicographic order of positions. *)
Fixpoint combinations (T : Type) (xs : seq T) (r : nat) : seq (seq T) :=
  match xs with
  | [::] => if r is 0 then [:: [::]] else [::]
  | x :: t =>
      match r with
      | 0 => [:: [::]]
      | r'.+1 => [seq x :: c | c <- combinations t r'] ++ combinations t r
      end
  end.

(** [port_combos = list(combinations(ports, 2))] *)
Definition port_combos (n : nat) : seq (seq nat) := combinations (arange n) 2.

(** Tuple unpacking [x, y = s]: raises [ValueError] unless [s] has exactly
    two elements. *)
Definition unpack2 (T : Type) (s : seq T) : result (T * T) :=
  if s is [:: x; y] then Ok (x, y) else Err ValueError.

(** [ports[(ports != a) & (ports != b)]] *)
Definition others (ports : seq nat) (a b : nat) : seq nat :=
  [seq p <- ports | (p != a) && (p != b)].

(** [where(xs == d)[0][0]]: the position of the first occurrence of [d];
    [IndexError] when there is none. *)
Definition where_first (xs : seq nat) (d : nat) : result nat :=
  if d \in xs then Ok (index d xs) else Err IndexError.

(** Lines 170-173 of the notebook: the two ports [c], [d] that receive the
    loads, and the position [e] of [d] once [c] has been removed. *)
Definition plan (n a b : nat) : result (nat * nat * nat) :=
  let ports := arange n in
  ' (c, d) <~ unpack2 (others ports a b) ;;
  e <~ where_first [seq p <- ports | p != c] d ;;
  Ok (c, d, e).

(** Modelled from the spec: the renumbering rule of the connector
    ([rf.connect] is not part of the notebook), section 4.2, when the second
    network is a one-port load: the joined port is deleted and the relative
    order of the others is kept. *)
Definition remove_port (T : Type) (labels : seq T) (k : nat) : result (seq T) :=
  if k < size labels then Ok (take k labels ++ drop k.+1 labels)
  else Err DomainError.

(** The position of port [m] in the pair [(a, b)]: the index [i] that
    [enumerate([a, b])] gives it. *)
Definition pos_in (a b m : nat) : nat := if m == a then 0 else 1.

(** The same position as an index of the 2-port measured on the pair. *)
Definition pos2 (a m : nat) : 'I_2 := if m == a then ord0 else lift ord0 ord0.

(** The last pair of a list of pairs that contains both [m] and [n]: the
    last iteration of the loop that assigns the cell [(m, n)]. *)
Definition last_writer (combos : seq (seq nat)) (m n : nat)
  : option (seq nat) :=
  ohead (rev [seq ab <- combos | (m \in ab) && (n \in ab)]).

(** The original device ports that are left, in order, after the two
    terminations [connect(dut, c, loads[c], 0)] and
    [connect(three_port, e, loads[d], 0)] of the loop body. *)
Definition sub_network_ports (n a b : nat) : result (seq nat) :=
  ' (c, _, e) <~ plan n a b ;;
  three <~ remove_port (arange n) c ;;
  remove_port three e.

End Ports.

(* ===================================================================== *)
(** ** Frequency-sampled networks                                         *)
(* ===================================================================== *)

Section NetworkData.

Variables (Hz T : Type).

(** A [P]-port network: [s] has the shape F x P x P and [z0] the shape
    F x P of the arrays of [skrf.Network], kept as one matrix and one row
    vector per frequency point. *)
Record network (P : nat) := Network {
  frequency : seq Hz;
  s : seq 'M[T]_P;
  z0 : seq 'rV[T]_P
}.

Definition nports (P : nat) (N : network P) : nat := P.

Definition npoints (P : nat) (N : network P) : nat := size (s N).

Definition with_s (P : nat) (N : network P) (s' : seq 'M[T]_P) : network P :=
  Network (frequency N) s' (z0 N).

Definition with_z0 (P : nat) (N : network P) (z' : seq 'rV[T]_P) : network P :=
  Network (frequency N) (s N) z'.

(** An integer index into an axis of length [P]; [IndexError] out of range. *)
Definition ord_of (P : nat) (i : nat) : result 'I_P :=
  (if i < P as b return (i < P) = b -> result 'I_P
   then fun lt_i_P => Ok (Ordinal lt_i_P)
   else fun _ => Err IndexError) (erefl (i < P)).

(** The right-hand side of a slice assignment [dst[...] = src] into [n]
    cells, with numpy's broadcasting of a length-1 source; [ValueError]
    when the shapes cannot be broadcast. *)
Definition assign (n : nat) (src : seq T) : result (seq T) :=
  if size src == n then Ok src
  else if src is [:: v] then Ok (nseq n v)
  else Err ValueError.

(** The column of an array at in-range indices. *)
Definition col (P : nat) (a : seq 'M[T]_P) (i j : 'I_P) : seq T :=
  [seq A i j | A : 'M[T]_P <- a].

Definition zcol (P : nat) (z : seq 'rV[T]_P) (k : 'I_P) : seq T :=
  [seq v ord0 k | v : 'rV[T]_P <- z].

(** [arr[:, i, j]] *)
Definition get_col (P : nat) (a : seq 'M[T]_P) (i j : nat) : result (seq T) :=
  oi <~ ord_of P i ;; oj <~ ord_of P j ;; Ok (col a oi oj).

Definition upd_mx (m n : nat) (A : 'M[T]_(m, n)) (i0 : 'I_m) (j0 : 'I_n) (v : T)
  : 'M[T]_(m, n) :=
  (\matrix_(i, j) if (i == i0) && (j == j0) then v else A i j)%R.

(** [arr[:, i, j] = src] *)
Definition set_col (P : nat) (a : seq 'M[T]_P) (i j : nat) (src : seq T)
  : result (seq 'M[T]_P) :=
  oi <~ ord_of P i ;; oj <~ ord_of P j ;;
  vals <~ assign (size a) src ;;
  Ok [seq upd_mx Av.1 oi oj Av.2 | Av : 'M[T]_P * T <- zip a vals].

(** [z[:, k]] *)
Definition get_zcol (P : nat) (z : seq 'rV[T]_P) (k : nat) : result (seq T) :=
  ok <~ ord_of P k ;; Ok (zcol z ok).

(** [z[:, k] = src] *)
Definition set_zcol (P : nat) (z : seq 'rV[T]_P) (k : nat) (src : seq T)
  : result (seq 'rV[T]_P) :=
  ok <~ ord_of P k ;;
  vals <~ assign (size z) src ;;
  Ok [seq upd_mx zv.1 ord0 ok zv.2 | zv : 'rV[T]_P * T <- zip z vals].

(** [c_[x, y]]: two columns of equal length side by side, an F x 2 array. *)
Definition c_ (x y : seq T) : result (seq 'rV[T]_2) :=
  if size x == size y
  then Ok [seq (\row_(j < 2) (if j == ord0 then xy.1 else xy.2))%R
          | xy : T * T <- zip x y]
  else Err ValueError.

(** A scalar impedance broadcast to the F x P shape of a network's [z0]. *)
Definition broadcast_z0 (P : nat) (N : network P) (z : T) : seq 'rV[T]_P :=
  nseq (npoints N) (const_mx z).

End NetworkData.

(** Python dictionaries with insertion order, as association lists. *)
Section Dict.

Variables (K : eqType) (V : Type).

Definition dict := seq (K * V).

Fixpoint dict_set (d : dict) (k : K) (v : V) : dict :=
  match d with
  | [::] => [:: (k, v)]
  | kv :: d' => if kv.1 == k then (k, v) :: d' else kv :: dict_set d' k v
  end.

Fixpoint dict_get (d : dict) (k : K) : option V :=
  match d with
  | [::] => None
  | kv :: d' => if kv.1 == k then Some kv.2 else dict_get d' k
  end.

End Dict.

(* ===================================================================== *)
(** ** The library interface the notebook drives                          *)
(* ===================================================================== *)

Section ToolkitSig.

Variables (Hz T Noise : Type).

(** The functions and methods of [skrf] that the notebook calls. Their code
    is not part of the notebook; the composition loop below is written
    against this signature and section [Model] gives the instance described
    by the design document.
    - [rf_connect A k B l]   is [rf.connect(A, k, B, l)];
    - [ntwk_renormalize N z] is [N.renormalize(z)], the renormalized network
      being returned instead of mutated in place;
    - [ntwk_z N]             is the property [N.z];
    - [wg_match n]           is [wg.match(nports = n)];
    - [wg_load gamma]        is [wg.load(gamma)];
    - [ntwk_add_noise_polar] is [N.add_noise_polar(mag_dev, phase_dev)]; it
      draws random numbers, so the model gives it the pair being measured as
      a stand-in for the state of the generator at that call. *)
Record toolkit := Toolkit {
  rf_connect : forall P Q : nat,
    network Hz T P -> nat -> network Hz T Q -> nat ->
    result (network Hz T (P.-1 + Q.-1));
  ntwk_renormalize : forall P : nat,
    network Hz T P -> seq 'rV[T]_P -> result (network Hz T P);
  ntwk_z : forall P : nat, network Hz T P -> result (seq 'M[T]_P);
  wg_match : forall n : nat, network Hz T n;
  wg_load : T -> network Hz T 1;
  ntwk_add_noise_polar : Noise -> nat * nat -> network Hz T 2 -> network Hz T 2
}.

End ToolkitSig.

(* ===================================================================== *)
(** ** The composition loop of the notebook                               *)
(* ===================================================================== *)

Section Composer.

Variables (Hz T Noise : Type).
Variable tk : toolkit Hz T Noise.

(** The literal [50] of [composite.renormalize(50)]. *)
Variable fifty : T.

Notation ntwk := (network Hz T).

(** [xs[i]] on a Python list *)
Definition list_get (X : Type) (xs : seq X) (i : nat) : result X :=
  if drop i xs is x :: _ then Ok x else Err IndexError.

(** [enumerate(xs)] *)
Definition enumerate (X : Type) (xs : seq X) : seq (nat * X) :=
  zip (iota 0 (size xs)) xs.

(** [k.z.flatten()] of a one-port: the F x 1 x 1 array as F numbers. *)
Definition z_flatten (k : ntwk 1) : result (seq T) :=
  z <~ ntwk_z tk k ;; Ok [seq Z ord0 ord0 | Z : 'M[T]_1 <- z].

(** [z_loads = array([k.z.flatten() for k in loads]).T], kept as the list of
    its columns: [z_loads[:, a]] is the a-th element. [array] refuses rows of
    different lengths ([ValueError]). *)
Definition z_loads_of (loads : seq (ntwk 1)) : result (seq (seq T)) :=
  cols <~ mapM z_flatten loads ;;
  if cols is c0 :: rest
  then if all (fun c : seq T => size c == size c0) rest then Ok cols
       else Err ValueError
  else Ok cols.

(** The two global dictionaries [measured] and [measured_renorm]. The key
    ['%i%i' % (a, b)] is kept as the pair [(a, b)], which the format maps
    one to one for the one-digit ports of a 4-port. *)
Record globals := Globals {
  measured : dict (nat * nat)%type (ntwk 2);
  measured_renorm : dict (nat * nat)%type (ntwk 2)
}.

(** Lines 170-178 (and 368-378): the raw 2-port measurement of ports [a] and
    [b], the two other ports being closed on their loads. *)
Definition raw_measurement (dut : ntwk 4) (loads : seq (ntwk 1))
    (noise : option Noise) (a b : nat) : result (ntwk 2) :=
  ' (c, d, e) <~ Ports.plan (nports dut) a b ;;
  load_c <~ list_get loads c ;;
  three_port <~ rf_connect tk dut c load_c 0 ;;
  load_d <~ list_get loads d ;;
  two_port <~ rf_connect tk three_port e load_d 0 ;;
  Ok (if noise is Some nz then ntwk_add_noise_polar tk nz (a, b) two_port
      else two_port).

(** [two_port.renormalize(c_[z_loads[:,a], z_loads[:,b]])] *)
Definition renormalized (z_loads : seq (seq T)) (two_port : ntwk 2)
    (a b : nat) : result (ntwk 2) :=
  za <~ list_get z_loads a ;;
  zb <~ list_get z_loads b ;;
  z_new <~ c_ za zb ;;
  ntwk_renormalize tk two_port z_new.

(** The cells [(m, n)] that the two nested loops over [enumerate([a, b])]
    assign, in the order of the assignments. *)
Definition written_cells (a b : nat) : seq (nat * nat) :=
  [seq (im.2, jn.2) | im <- enumerate [:: a; b], jn <- enumerate [:: a; b]].

(** One assignment [composite.s[:, m, n] = two_port.s[:, i, j]]. *)
Definition stuff_cell (two_port : ntwk 2) (composite : ntwk 4)
    (im jn : nat * nat) : result (ntwk 4) :=
  col <~ get_col (s two_port) im.1 jn.1 ;;
  s' <~ set_col (s composite) im.2 jn.2 col ;;
  Ok (with_s composite s').

(** Lines 184-191: "stuff this 2-port into the composite 4-port", then
    "properly copy the port impedances". *)
Definition stuff (composite : ntwk 4) (two_port : ntwk 2) (a b : nat)
  : result (ntwk 4) :=
  composite1 <~ foldM (fun comp (c : (nat * nat) * (nat * nat)) =>
                         stuff_cell two_port comp c.1 c.2)
                      composite
                      [seq (im, jn) | im <- enumerate [:: a; b],
                                      jn <- enumerate [:: a; b]] ;;
  z_a <~ get_zcol (z0 two_port) 0 ;;
  z0_1 <~ set_zcol (z0 composite1) a z_a ;;
  z_b <~ get_zcol (z0 two_port) 1 ;;
  z0_2 <~ set_zcol z0_1 b z_b ;;
  Ok (with_z0 composite1 z0_2).

(** The body of [for a, b in port_combos]. The dictionaries are global, so
    what was stored in them before an exception stays stored. *)
Definition body (dut : ntwk 4) (loads : seq (ntwk 1)) (z_loads : seq (seq T))
    (noise : option Noise) (composite : ntwk 4) (g : globals) (ab : seq nat)
  : result (ntwk 4) * globals :=
  match (' (a, b) <~ Ports.unpack2 ab ;;
         two_port <~ raw_measurement dut loads noise a b ;;
         Ok (a, b, two_port)) with
  | Err e => (Err e, g)
  | Ok (a, b, two_port) =>
      let g1 := Globals (dict_set (measured g) (a, b) two_port)
                        (measured_renorm g) in
      match renormalized z_loads two_port a b with
      | Err e => (Err e, g1)
      | Ok two_port' =>
          let g2 := Globals (measured g1)
                            (dict_set (measured_renorm g1) (a, b) two_port') in
          (stuff composite two_port' a b, g2)
      end
  end.

(** The [for] loop: an exception leaves the loop at once. *)
Fixpoint run_loop (dut : ntwk 4) (loads : seq (ntwk 1))
    (z_loads : seq (seq T)) (noise : option Noise) (combos : seq (seq nat))
    (composite : ntwk 4) (g : globals) : result (ntwk 4) * globals :=
  match combos with
  | [::] => (Ok composite, g)
  | ab :: rest =>
      match body dut loads z_loads noise composite g ab with
      | (Ok composite', g') =>
          run_loop dut loads z_loads noise rest composite' g'
      | (Err e, g') => (Err e, g')
      end
  end.

(** [composite.renormalize(50)] *)
Definition finish (composite : ntwk 4) : result (ntwk 4) :=
  ntwk_renormalize tk composite (broadcast_z0 composite fifty).

(** The cells of the notebook from [z_loads = ...] (line 128) to
    [composite.renormalize(50)] (line 195), as a function of the device and
    of the four loads. *)
Definition composer (dut : ntwk 4) (loads : seq (ntwk 1))
  : result (ntwk 4) * globals :=
  let g0 := Globals [::] [::] in
  match z_loads_of loads with
  | Err e => (Err e, g0)
  | Ok z_loads =>
      let ports := Ports.arange (nports dut) in
      let port_combos := Ports.combinations ports 2 in
      let composite := wg_match tk 4 in
      match run_loop dut loads z_loads None port_combos composite g0 with
      | (Ok composite', g) => (finish composite', g)
      | (Err e, g) => (Err e, g)
      end
  end.

(** Line 357: [loads = [wg.load(gamma) for k in ports]] *)
Definition tippits_loads (ports : seq nat) (gamma : T) : seq (ntwk 1) :=
  [seq wg_load tk gamma | k <- ports].

(** [def tippits(dut, gamma, noise=None)], lines 350-397. Its two
    dictionaries are the global ones of the notebook (the local definitions
    are commented out), so the function takes and returns them. *)
Definition tippits (dut : ntwk 4) (gamma : T) (noise : option Noise)
    (g : globals) : result (ntwk 4) * globals :=
  let ports := Ports.arange (nports dut) in
  let port_combos := Ports.combinations ports 2 in
  let loads := tippits_loads ports gamma in
  match z_loads_of loads with
  | Err e => (Err e, g)
  | Ok z_loads =>
      let composite := wg_match tk (nports dut) in
      match run_loop dut loads z_loads noise port_combos composite g with
      | (Ok composite', g') => (finish composite', g')
      | (Err e, g') => (Err e, g')
      end
  end.

End Composer.

(* ===================================================================== *)
(** ** The library as the design document describes it                    *)
(* ===================================================================== *)

Module Skrf.

Section Model.

Local Open Scope ring_scope.

(** The scalars: the complex numbers of the notebook, taken as any numeric
    field (the rationals and the algebraic complex numbers are instances),
    so that every statement is one of exact arithmetic. *)
Variable F : numFieldType.

(** The wave normalisation: a scattering matrix referenced to [z0] is
    [W^-1 (Z - Z0) (Z + Z0)^-1 W] with [W = diag (w z0)]; [w] is the square
    root for pseudo-waves and the constant [1] for plain voltage waves. *)
Variable w : F -> F.

Variable Hz : eqType.
Variable Noise : Type.

Notation ntwk := (network Hz F).

(** Modelled from the spec: the data model asks every reference impedance
    to be nonzero; the conversions refuse one that is zero or that the wave
    normalisation sends to zero. *)
Definition regular_z0 (n : nat) (z : 'rV[F]_n) : bool :=
  [forall k, (z 0 k != 0) && (w (z 0 k) != 0)].

(** [W S W^-1] and [W^-1 U W], entry by entry. *)
Definition unnormalize (n : nat) (z : 'rV[F]_n) (S : 'M[F]_n) : 'M[F]_n :=
  \matrix_(i, j) (w (z 0 i) * S i j / w (z 0 j)).

Definition normalize (n : nat) (z : 'rV[F]_n) (U : 'M[F]_n) : 'M[F]_n :=
  \matrix_(i, j) (U i j * w (z 0 j) / w (z 0 i)).

(** Modelled from the spec: section 4.1, the "standard bilinear relation
    between scattering and impedance parameters" at one frequency point,
    [Z = (1 - U)^-1 (1 + U) Z0] and [U = (Z - Z0) (Z + Z0)^-1]. The
    functions [s2z] and [z2s] of [skrf] are not part of the notebook. *)
Definition z_of_u (n : nat) (U : 'M[F]_n) (z : 'rV[F]_n) : 'M[F]_n :=
  invmx (1%:M - U) *m (1%:M + U) *m diag_mx z.

Definition u_of_z (n : nat) (Z : 'M[F]_n) (z : 'rV[F]_n) : 'M[F]_n :=
  (Z - diag_mx z) *m invmx (Z + diag_mx z).

Definition s2z_mx (n : nat) (S : 'M[F]_n) (z : 'rV[F]_n) : 'M[F]_n :=
  z_of_u (unnormalize z S) z.

Definition z2s_mx (n : nat) (Z : 'M[F]_n) (z : 'rV[F]_n) : 'M[F]_n :=
  normalize z (u_of_z Z z).

(** Modelled from the spec: section 4.1, the conversion from scattering to
    impedance parameters at one frequency point. That the network has an
    impedance form (a port with reflection coefficient 1 has none) is "a
    precondition, not a runtime guard": the conversion does not check it,
    and outside the precondition its value is not specified (the model
    returns what [invmx] gives on a singular matrix). Only a reference
    impedance that the data model rules out is refused. *)
Definition s2z_pt (n : nat) (S : 'M[F]_n) (z : 'rV[F]_n) : result 'M[F]_n :=
  if regular_z0 z then Ok (s2z_mx S z) else Err SingularityError.

(** Modelled from the spec: section 7, a conversion back to scattering
    parameters whose linear system is singular raises [SingularityError]. *)

Definition z2s_pt (n : nat) (Z : 'M[F]_n) (z : 'rV[F]_n) : result 'M[F]_n :=
  if regular_z0 z && (Z + diag_mx z \in unitmx)
  then Ok (z2s_mx Z z) else Err SingularityError.

(** The conversions over the frequency axis, one frequency index after the
    other as in [for fidx in range(nfreqs)]; [ShapeError] when the two
    arrays do not have the same number of frequency points. *)
Definition s2z_arr (P : nat) (ss : seq 'M[F]_P) (zs : seq 'rV[F]_P)
  : result (seq 'M[F]_P) :=
  if size ss == size zs
  then mapM (fun f => s2z_pt (nth 0 ss f) (nth 0 zs f)) (iota 0 (size ss))
  else Err ShapeError.

Definition z2s_arr (P : nat) (Zs : seq 'M[F]_P) (zs : seq 'rV[F]_P)
  : result (seq 'M[F]_P) :=
  if size Zs == size zs
  then mapM (fun f => z2s_pt (nth 0 Zs f) (nth 0 zs f)) (iota 0 (size Zs))
  else Err ShapeError.

(** Modelled from the spec: the property [Network.z]. *)
Definition z_of (P : nat) (N : ntwk P) : result (seq 'M[F]_P) :=
  s2z_arr (s N) (z0 N).

(** Modelled from the spec: section 4.3, the Renormalizer: "convert to
    impedance-parameter form using the current z0, then convert back to
    scattering form using z0_new", and replace [z0] with [z0_new]. *)
Definition renormalize (P : nat) (N : ntwk P) (z_new : seq 'rV[F]_P)
  : result (ntwk P) :=
  Zs <~ z_of N ;;
  s' <~ z2s_arr Zs z_new ;;
  Ok (Network (frequency N) s' z_new).

(** Modelled from the spec: the renumbering of section 4.2, "the joined
    ports removed and all other ports renumbered by deleting the joined
    indices and preserving the relative order of the rest": port [m] of the
    result is port [survivor k l m] of A and B put side by side. *)
Definition survivor (P Q : nat) (k : 'I_P) (l : 'I_Q) (m : 'I_(P.-1 + Q.-1))
  : 'I_(P + Q) :=
  match split m with
  | inl i => lshift Q (lift k i)
  | inr j => rshift P (lift l j)
  end.

(** Modelled from the spec: section 4.2, the Connector at one frequency
    point. The two impedance matrices side by side, the constraint that the
    joined ports [p] and [q] have equal voltages and opposite currents, and
    the elimination of their two variables; [join_den] is the pivot of that
    elimination. *)
Definition join_den (P Q : nat) (ZA : 'M[F]_P) (ZB : 'M[F]_Q)
    (k : 'I_P) (l : 'I_Q) : F :=
  let Zt := block_mx ZA 0 0 ZB in
  let p := lshift Q k in
  let q := rshift P l in
  Zt p p + Zt q q - Zt p q - Zt q p.

Definition join_z (P Q : nat) (ZA : 'M[F]_P) (ZB : 'M[F]_Q)
    (k : 'I_P) (l : 'I_Q) : 'M[F]_(P + Q) :=
  let Zt := block_mx ZA 0 0 ZB in
  let p := lshift Q k in
  let q := rshift P l in
  \matrix_(m, r)
    (Zt m r + (Zt m p - Zt m q) * (Zt q r - Zt p r) / join_den ZA ZB k l).

Definition connect_z (P Q : nat) (ZA : 'M[F]_P) (ZB : 'M[F]_Q)
    (k : 'I_P) (l : 'I_Q) : 'M[F]_(P.-1 + Q.-1) :=
  mxsub (survivor k l) (survivor k l) (join_z ZA ZB k l).

(** The reference impedances of the surviving ports, "simply copied from A
    and B, in original order". *)
Definition connect_z0 (P Q : nat) (zA : 'rV[F]_P) (zB : 'rV[F]_Q)
    (k : 'I_P) (l : 'I_Q) : 'rV[F]_(P.-1 + Q.-1) :=
  \row_m (row_mx zA zB) 0 (survivor k l m).

Definition connect_pt (P Q : nat) (k : 'I_P) (l : 'I_Q)
    (a : 'M[F]_P * 'rV[F]_P) (b : 'M[F]_Q * 'rV[F]_Q)
  : result ('M[F]_(P.-1 + Q.-1) * 'rV[F]_(P.-1 + Q.-1)) :=
  if join_den a.1 b.1 k l == 0 then Err SingularityError
  else
    let zC := connect_z0 a.2 b.2 k l in
    SC <~ z2s_pt (connect_z a.1 b.1 k l) zC ;;
    Ok (SC, zC).

(** The elimination when B is a one-port of impedance [zl] ("terminate port
    [c] of A with load B"), and the Schur complement it is an instance of.
    Lemma [connect_z_load] shows that [connect_z] computes [terminate_z]. *)
Definition terminate_z (n : nat) (Z : 'M[F]_n.+1) (c : 'I_n.+1) (zl : F)
  : 'M[F]_n :=
  \matrix_(i, j) (Z (lift c i) (lift c j)
                  - Z (lift c i) c * Z c (lift c j) / (Z c c + zl)).

Definition schur (n : nat) (M : 'M[F]_n.+1) (c : 'I_n.+1) : 'M[F]_n :=
  \matrix_(i, j) (M (lift c i) (lift c j)
                  - M (lift c i) c * M c (lift c j) / M c c).

(** Modelled from the spec: section 4.2, the Connector, [rf.connect]. It
    fails with [DomainError] on mismatched frequency grids and on a port
    index out of range. *)
Definition connect (P Q : nat) (A : ntwk P) (k : nat) (B : ntwk Q) (l : nat)
  : result (ntwk (P.-1 + Q.-1)) :=
  if frequency A != frequency B then Err DomainError
  else
    match insub k, insub l with
    | Some ok, Some ol =>
        ZA <~ z_of A ;;
        ZB <~ z_of B ;;
        if size ZA != size ZB then Err ShapeError
        else
          pts <~ mapM (fun f => connect_pt ok ol
                                  (nth 0 ZA f, nth 0 (z0 A) f)
                                  (nth 0 ZB f, nth 0 (z0 B) f))
                      (iota 0 (size ZA)) ;;
          Ok (Network (frequency A) (unzip1 pts) (unzip2 pts))
    | _, _ => Err DomainError
    end.

(** Modelled from the spec: section 6, the network source. A medium has a
    frequency grid and a port impedance; [load] is a one-port with the given
    reflection coefficient, [matched] the all-zero scattering matrix. *)
Record media := Media {
  m_frequency : seq Hz;
  m_z0 : F
}.

Definition load (wg : media) (gamma : F) : ntwk 1 :=
  let n := size (m_frequency wg) in
  Network (m_frequency wg) (nseq n (const_mx gamma)) (nseq n (const_mx (m_z0 wg))).

Definition matched (wg : media) (n : nat) : ntwk n :=
  let f := size (m_frequency wg) in
  Network (m_frequency wg) (nseq f 0) (nseq f (const_mx (m_z0 wg))).

(** The library of the notebook, for a medium [wg] and a noise function. *)
Definition lib (wg : media)
    (add_noise : Noise -> nat * nat -> ntwk 2 -> ntwk 2)
  : toolkit Hz F Noise :=
  Toolkit connect renormalize z_of (matched wg) (load wg) add_noise.

(** *** The run of the composer, step by step

    The quantities that an exact run of the composer meets at the frequency
    point of index [f], written as total functions, and the condition that
    none of the linear systems it solves there is singular. *)

Definition pt_s (P : nat) (N : ntwk P) (f : nat) : 'M[F]_P := nth 0 (s N) f.

Definition pt_z0 (P : nat) (N : ntwk P) (f : nat) : 'rV[F]_P := nth 0 (z0 N) f.

(** [N.z[f]], and the precondition of section 4.1 under which it is the
    impedance matrix of the network: the reference impedances are regular
    and [1 - S] (normalised) is invertible. *)
Definition z_at (P : nat) (N : ntwk P) (f : nat) : 'M[F]_P :=
  s2z_mx (pt_s N f) (pt_z0 N f).

Definition z_defined (P : nat) (N : ntwk P) (f : nat) : bool :=
  regular_z0 (pt_z0 N f)
  && (1%:M - unnormalize (pt_z0 N f) (pt_s N f) \in unitmx).

Definition no_network (P : nat) : ntwk P := Network [::] [::] [::].

(** [z_loads[f, :]]: the impedances of the four loads. *)
Definition loads_z (loads : seq (ntwk 1)) (f : nat) : 'rV[F]_4 :=
  \row_(k < 4) z_at (nth (no_network 1) loads k) f ord0 ord0.

(** The measurement that closes port [c], then the port at position [e] of
    what is left (port [lift c e] of the device): the two pivots are
    nonzero and the two reduced networks have a scattering matrix at the
    reference impedances of the device. *)
Definition pair_regular (Z : 'M[F]_4) (zd zl : 'rV[F]_4) (c : 'I_4) (e : 'I_3)
  : bool :=
  let Z3 := terminate_z Z c (zl 0 c) in
  let Z2 := terminate_z Z3 e (zl 0 (lift c e)) in
  [&& Z c c + zl 0 c != 0,
      Z3 + diag_mx (col' c zd) \in unitmx,
      Z3 e e + zl 0 (lift c e) != 0
    & Z2 + diag_mx (col' e (col' c zd)) \in unitmx].

(** No step of the run is singular at the frequency point [f]: the device
    and the loads have impedance parameters, the load impedances can serve
    as reference impedances, the device has a scattering matrix referenced
    to them, and each of the six measurements is regular. *)
Definition regular_at (dut : ntwk 4) (loads : seq (ntwk 1)) (f : nat) : bool :=
  [&& z_defined dut f,
      [forall k : 'I_4, z_defined (nth (no_network 1) loads k) f],
      regular_z0 (loads_z loads f),
      z_at dut f + diag_mx (loads_z loads f) \in unitmx
    & [forall c : 'I_4, forall e : 'I_3,
         (c <= e)%N ==>
         pair_regular (z_at dut f) (pt_z0 dut f) (loads_z loads f) c e]].

(** The device seen from the load impedances at the point [f]. *)
Definition s_full (dut : ntwk 4) (loads : seq (ntwk 1)) (f : nat) : 'M[F]_4 :=
  z2s_mx (z_at dut f) (loads_z loads f).

(** The port [c] that the measurement of the pair [(a, b)] closes first and
    the position [e] of the second one, as the plan of the loop gives them,
    and the columns of [z_loads] for loads sampled at [n] points. *)
Definition left_out (a b : nat) : 'I_4 * 'I_3 :=
  if Ports.plan 4 a b is Ok (c, _, e) then (inord c, inord e) else (ord0, ord0).

Definition z_cols (loads : seq (ntwk 1)) (n : nat) : seq (seq F) :=
  mkseq (fun k => mkseq (fun f => z_at (nth (no_network 1) loads k) f ord0 ord0) n) 4.

(** The networks an exact run produces for the pair that leaves out port
    [c] and port [lift c e], over [n] frequency points: the device with port
    [c] closed, the raw 2-port measurement, and the measurement renormalized
    to the impedances of the loads of its two ports. *)
Definition three_port_z (dut : ntwk 4) (loads : seq (ntwk 1)) (c : 'I_4)
    (f : nat) : 'M[F]_3 :=
  terminate_z (z_at dut f) c (loads_z loads f 0 c).

Definition two_port_z (dut : ntwk 4) (loads : seq (ntwk 1)) (c : 'I_4)
    (e : 'I_3) (f : nat) : 'M[F]_2 :=
  terminate_z (three_port_z dut loads c f) e (loads_z loads f 0 (lift c e)).

Definition three_port_net (dut : ntwk 4) (loads : seq (ntwk 1)) (c : 'I_4)
    (n : nat) : ntwk 3 :=
  Network (frequency dut)
    (mkseq (fun f => z2s_mx (three_port_z dut loads c f)
                       (col' c (pt_z0 dut f))) n)
    (mkseq (fun f => col' c (pt_z0 dut f)) n).

Definition raw_net (dut : ntwk 4) (loads : seq (ntwk 1)) (c : 'I_4)
    (e : 'I_3) (n : nat) : ntwk 2 :=
  Network (frequency dut)
    (mkseq (fun f => z2s_mx (two_port_z dut loads c e f)
                       (col' e (col' c (pt_z0 dut f)))) n)
    (mkseq (fun f => col' e (col' c (pt_z0 dut f))) n).

Definition renorm_net (dut : ntwk 4) (loads : seq (ntwk 1)) (c : 'I_4)
    (e : 'I_3) (n : nat) : ntwk 2 :=
  Network (frequency dut)
    (mkseq (fun f => mxsub (lift e) (lift e)
                       (mxsub (lift c) (lift c) (s_full dut loads f))) n)
    (mkseq (fun f => col' e (col' c (loads_z loads f))) n).

End Model.

End Skrf.
(* ===================================================================== *)
(** ** A small instance of the notebook                                   *)
(* ===================================================================== *)

Module Demo.

Import GRing.Theory Num.Theory.
Import Skrf.
Local Open Scope ring_scope.

(** Plain voltage waves over the rationals, one frequency point, a medium
    of port impedance 50. *)
Definition w (_ : rat) : rat := 1.

Definition wg : media rat nat := Media [:: 1%N] 50.

Definition add_noise (_ : unit) (_ : nat * nat) (N : network nat rat 2)
  : network nat rat 2 := N.

Definition tk : toolkit nat rat unit := lib w wg add_noise.

(** The matched 4-port of the medium, and four matched loads of port
    impedances 25, 50, 75 and 100: four different terminations. *)
Definition dut : network nat rat 4 := matched wg 4.

Definition impedances : seq rat := [:: 25; 50; 75; 100].

Definition loads : seq (network nat rat 1) :=
  [seq load (Media [:: 1%N] z) 0 | z <- impedances].

(** A reflective load of the medium, of reflection coefficient 1/2. *)
Definition half : network nat rat 1 := load wg (1 / 2).


End Demo.

(* ===================================================================== *)
(** ** Reading the dictionaries                                           *)
(* ===================================================================== *)

(** [d.keys()], in insertion order. *)
Definition keys (K : eqType) (V : Type) (d : dict K V) : seq K :=
  [seq kv.1 | kv <- d].

(** [[measured[k] for k in measured if k[0] == '0']], the list given to
    [rf.NS] before the two plots of [S11]: the measurements whose key starts
    with the digit of port 0, in the order of the dictionary. *)
Definition s11_set (V : Type) (d : dict (nat * nat)%type V) : seq V :=
  [seq kv.2 | kv <- d & kv.1.1 == 0].

From Stdlib Require String Ascii DecimalString.

(** ['%i' % n]: the decimal digits of [n]. *)
Definition fmt_i (n : nat) : String.string :=
  DecimalString.NilEmpty.string_of_uint (Nat.to_uint n).

(** ['%i%i' % (a, b)], the key of the pair [(a, b)] in [measured] and in
    [measured_renorm]. *)
Definition key (a b : nat) : String.string :=
  String.append (fmt_i a) (fmt_i b).

(** [k[0] == '0'] *)
Definition starts_with_0 (k : String.string) : bool :=
  if k is String.String c _
  then Ascii.eqb c (Ascii.Ascii false false false false true true false false)
  else false.


(* ===================================================================== *)
(** * Properties                                                          *)
(* ===================================================================== *)

(** ** The error monad *)

Lemma bind_ok (T U : Type) (r : result T) (k : T -> result U) (y : U) :
  bind r k = Ok y -> exists2 x, r = Ok x & k x = Ok y.
Proof. by case: r => [x|e] //= kx; exists x. Qed.

Lemma mapM_ok (T : eqType) (U : Type) (f : T -> result U) (g : T -> U)
    (xs : seq T) :
  {in xs, forall x, f x = Ok (g x)} -> mapM f xs = Ok (map g xs).
Proof.
elim: xs => [|x xs IH] //= H.
rewrite (H x (mem_head _ _)) /= IH // => y Hy.
by apply: H; rewrite inE Hy orbT.
Qed.

Lemma mapM_size (T U : Type) (f : T -> result U) (xs : seq T) (ys : seq U) :
  mapM f xs = Ok ys -> size ys = size xs.
Proof.
elim: xs ys => [|x xs IH] ys /=; first by case=> <-.
case: (f x) => [y|e] //=; case E: (mapM f xs) => [zs|e] //= [<-] /=.
by rewrite (IH zs).
Qed.

(** ** Port bookkeeping *)

Section PortFacts.

Import Ports.

Lemma port_combos4 :
  port_combos 4 =
  [:: [:: 0; 1]; [:: 0; 2]; [:: 0; 3]; [:: 1; 2]; [:: 1; 3]; [:: 2; 3]].
Proof. by []. Qed.

(** Case analysis over the six pairs. *)
Lemma combos4_ind (Pr : nat -> nat -> Prop) :
  Pr 0 1 -> Pr 0 2 -> Pr 0 3 -> Pr 1 2 -> Pr 1 3 -> Pr 2 3 ->
  forall a b, [:: a; b] \in port_combos 4 -> Pr a b.
Proof.
move=> p01 p02 p03 p12 p13 p23 a b; rewrite port_combos4 !inE.
by case/or4P => [/eqP[-> ->]|/eqP[-> ->]|/eqP[-> ->]|/or3P[]/eqP[-> ->]].
Qed.

(** The plan of each of the six measurements of a 4-port. *)
Lemma plan4 (a b : nat) :
  [:: a; b] \in port_combos 4 ->
  exists c d e, [/\ plan 4 a b = Ok (c, d, e), c < d, others (arange 4) a b = [:: c; d]
                  & [seq p <- arange 4 | p != c] = take e [seq p <- arange 4 | p != c] ++ d :: drop e.+1 [seq p <- arange 4 | p != c]].
Proof.
move: a b; apply: combos4_ind.
- by exists 2, 3, 2.
- by exists 1, 3, 2.
- by exists 1, 2, 1.
- by exists 0, 3, 2.
- by exists 0, 2, 1.
- by exists 0, 1, 0.
Qed.

(** C5, as the code has it: for each of the six pairs [(a, b)] of a 4-port,
    closing the two other ports in ascending order - port [c] first, then
    the port found at position [e] by the index lookup - leaves a 2-port
    whose ports 0 and 1 are the original ports [a] and [b], in that order. *)
Theorem sub_network_ports_of_4port (a b : nat) :
  [:: a; b] \in port_combos 4 ->
  sub_network_ports 4 a b = Ok [:: a; b].
Proof.
by move: a b; apply: combos4_ind.
Qed.

Lemma sub_network_ports_of_4port_witness :
  [:: 1; 3] \in port_combos 4 /\ sub_network_ports 4 1 3 = Ok [:: 1; 3].
Proof.
split; first by [].
exact: (@sub_network_ports_of_4port 1 3 isT).
Defined.

(** The number of ports left aside by a pair. *)
Lemma size_others (n a b : nat) :
  a < b -> b < n -> size (others (arange n) a b) = n - 2.
Proof.
move=> ab bn; rewrite /others /arange size_filter.
have an : a < n by exact: ltn_trans ab bn.
have -> : count (fun p => (p != a) && (p != b)) (iota 0 n) =
          count (predC (predU (pred1 a) (pred1 b))) (iota 0 n).
  by apply: eq_count => p /=; rewrite negb_or.
have E := count_predC (predU (pred1 a) (pred1 b)) (iota 0 n).
rewrite size_iota in E.
have c2 : count (predU (pred1 a) (pred1 b)) (iota 0 n) = 2.
  have := count_predUI (pred1 a) (pred1 b) (iota 0 n).
  rewrite !count_uniq_mem ?iota_uniq // !mem_iota /= !add0n an bn.
  rewrite (@eq_count _ (predI _ _) pred0) ?count_pred0 ?addn0 //.
  move=> p /=; apply/andP => -[/eqP-> /eqP ba]; by rewrite ba ltnn in ab.
by rewrite -[X in X - 2]E c2 addKn.
Qed.

(** For a device that does not have four ports the unpacking [c, d = ...]
    of line 170 raises, whatever the pair. *)
Lemma plan_needs_4port (n a b : nat) :
  a < b -> b < n -> n != 4 -> plan n a b = Err ValueError.
Proof.
move=> ab bn n4; rewrite /plan.
have := size_others ab bn.
have n2 : 2 <= n by exact: leq_ltn_trans (leq_ltn_trans (leq0n a) ab) bn.
case: (others _ _ _) => [|c [|d [|x r]]] //= E.
by move: n4; rewrite -(subnK n2) -E.
Qed.

(** C5 as stated fails for a device with five ports: the first pair already
    raises [ValueError] at the unpacking of the ports to terminate. *)
Lemma sub_network_ports_of_5port :
  [:: 0; 1] \in port_combos 5 /\ sub_network_ports 5 0 1 = Err ValueError.
Proof. by []. Qed.

End PortFacts.

(** ** Arrays and slice assignment *)

(** Inversion of a successful bind: the first step returned some [x], and
    the goal continues with the rest. *)
Ltac ok_bind x Hx :=
  let H := fresh "H" in
  move=> H; case: (bind_ok H) => {H} x Hx /=.

Section ArrayFacts.

Variables (T : Type).

Lemma ord_of_val (P : nat) (i : 'I_P) : ord_of P i = Ok i.
Proof.
rewrite /ord_of.
move: (erefl (i < P)); case: {2 3}(i < P) => H; last by rewrite ltn_ord in H.
by congr Ok; apply: val_inj.
Qed.

Lemma ord_of_ok (P i : nat) (o : 'I_P) : ord_of P i = Ok o -> i = o.
Proof.
rewrite /ord_of.
move: (erefl (i < P)); case: {2 3}(i < P) => H //.
by case=> <-.
Qed.

Lemma ord_of_lt (P i : nat) (o : 'I_P) : ord_of P i = Ok o -> i < P.
Proof. by move/ord_of_ok=> ->. Qed.

Lemma assign_size (n : nat) (src vals : seq T) :
  assign n src = Ok vals -> size vals = n.
Proof.
rewrite /assign; case: eqP => [<- [<-] //|_].
by case: src => [|v [|? ?]] // [<-]; rewrite size_nseq.
Qed.

Lemma assign_same (src : seq T) : assign (size src) src = Ok src.
Proof. by rewrite /assign eqxx. Qed.

Lemma get_col_ord (P : nat) (a : seq 'M[T]_P) (i j : 'I_P) :
  get_col a i j = Ok (col a i j).
Proof. by rewrite /get_col !ord_of_val. Qed.

Lemma get_zcol_ord (P : nat) (z : seq 'rV[T]_P) (k : 'I_P) :
  get_zcol z k = Ok (zcol z k).
Proof. by rewrite /get_zcol !ord_of_val. Qed.

Lemma size_col (P : nat) (a : seq 'M[T]_P) (i j : 'I_P) : size (col a i j) = size a.
Proof. by rewrite size_map. Qed.

Lemma size_zcol (P : nat) (z : seq 'rV[T]_P) (k : 'I_P) : size (zcol z k) = size z.
Proof. by rewrite size_map. Qed.

(** What a successful slice assignment does, column by column. *)
Lemma set_col_ok (P : nat) (a a' : seq 'M[T]_P) (m n : nat) (src : seq T) :
  set_col a m n src = Ok a' ->
  exists (om : 'I_P) (on : 'I_P) vals,
    [/\ m = om :> nat, n = on :> nat, assign (size a) src = Ok vals,
        size a' = size a
      & forall i j, col a' i j = if (i == om) && (j == on) then vals else col a i j].
Proof.
rewrite /set_col.
ok_bind om Em; ok_bind on En; ok_bind vals Ev.
move/ord_of_ok: Em => Em; move/ord_of_ok: En => En.
case=> <-; exists om, on, vals.
have sz := assign_size Ev.
split=> //; first by rewrite size_map size_zip sz minnn.
move=> i j; rewrite /col -map_comp.
case: ifP => C.
  rewrite -[RHS](@unzip2_zip _ _ a vals) ?sz // /unzip2.
  by apply: eq_map => -[A v] /=; rewrite /upd_mx mxE C.
rewrite -[in RHS](@unzip1_zip _ _ a vals) ?sz // /unzip1 -map_comp.
by apply: eq_map => -[A v] /=; rewrite /upd_mx mxE C.
Qed.

Lemma set_zcol_ok (P : nat) (z z' : seq 'rV[T]_P) (k : nat) (src : seq T) :
  set_zcol z k src = Ok z' ->
  exists (ok : 'I_P) vals,
    [/\ k = ok :> nat, assign (size z) src = Ok vals, size z' = size z
      & forall j, zcol z' j = if j == ok then vals else zcol z j].
Proof.
rewrite /set_zcol.
ok_bind ok Ek; ok_bind vals Ev; move/ord_of_ok: Ek => Ek.
case=> <-; exists ok, vals.
have sz := assign_size Ev.
split=> //; first by rewrite size_map size_zip sz minnn.
move=> j; rewrite /zcol -map_comp.
case: ifP => C.
  rewrite -[RHS](@unzip2_zip _ _ z vals) ?sz // /unzip2.
  by apply: eq_map => -[A v] /=; rewrite /upd_mx mxE eqxx C.
rewrite -[in RHS](@unzip1_zip _ _ z vals) ?sz // /unzip1 -map_comp.
by apply: eq_map => -[A v] /=; rewrite /upd_mx mxE C andbF.
Qed.

End ArrayFacts.

(** ** Stuffing a 2-port into the composite *)

Section StuffFacts.

Import Ports.

Variables (Hz T : Type).

Notation ntwk := (network Hz T).

Lemma pos2_a (a : nat) : pos2 a a = ord0.
Proof. by rewrite /pos2 eqxx. Qed.

Lemma pos2_b (a b : nat) : a != b -> pos2 a b = lift ord0 ord0.
Proof. by rewrite /pos2 eq_sym => /negbTE->. Qed.

Lemma stuff_cell_ok (tp : ntwk 2) (comp comp' : ntwk 4) (im jn : nat * nat) :
  stuff_cell tp comp im jn = Ok comp' ->
  exists (i j : 'I_2) (m n : 'I_4) vals,
    [/\ [/\ im.1 = i :> nat, jn.1 = j :> nat, im.2 = m :> nat & jn.2 = n :> nat],
        assign (size (s comp)) (col (s tp) i j) = Ok vals,
        [/\ frequency comp' = frequency comp, z0 comp' = z0 comp
          & size (s comp') = size (s comp)]
      & forall x y, col (s comp') x y
                    = if (x == m) && (y == n) then vals else col (s comp) x y].
Proof.
rewrite /stuff_cell /get_col.
ok_bind c Ec; move: Ec; ok_bind i Ei; ok_bind j Ej => -[<-].
ok_bind s' Es => -[<-] /=.
have [m [n [vals [Em En Ev sz Hc]]]] := set_col_ok Es.
exists i, j, m, n, vals; split=> //.
by split=> //; [exact: ord_of_ok Ei | exact: ord_of_ok Ej].
Qed.

Lemma ord_inj_eq (P : nat) (x y : 'I_P) : (x == y) = (x == y :> nat).
Proof. by []. Qed.

(** What a successful [stuff] leaves in the composite: the four cells of the
    pair hold the (broadcast) columns of the 2-port, every other cell is
    as before; the same for the two impedance slots. *)
Lemma stuff_ok (comp comp' : ntwk 4) (tp : ntwk 2) (a b : nat) :
  a != b ->
  stuff comp tp a b = Ok comp' ->
  [/\ a < 4 /\ b < 4, frequency comp' = frequency comp,
      size (s comp') = size (s comp) /\ size (z0 comp') = size (z0 comp),
      forall x y : 'I_4,
        (if (val x \in [:: a; b]) && (val y \in [:: a; b])
         then assign (size (s comp)) (col (s tp) (pos2 a x) (pos2 a y))
         else Ok (col (s comp) x y)) = Ok (col (s comp') x y)
    & forall k : 'I_4,
        (if val k \in [:: a; b]
         then assign (size (z0 comp)) (zcol (z0 tp) (pos2 a k))
         else Ok (zcol (z0 comp) k)) = Ok (zcol (z0 comp') k)].
Proof.
move=> ab; rewrite /stuff /=.
ok_bind c4 E4; move: E4.
ok_bind c1 E1; ok_bind c2 E2; ok_bind c3 E3; ok_bind c4' E4 => -[Ec4].
rewrite {c4'}Ec4 in E4.
have o0 : forall H, @Ordinal 2 0 H = ord0 by move=> H; apply: val_inj.
have o1 : forall H, @Ordinal 2 1 H = lift ord0 ord0 by move=> H; apply: val_inj.
rewrite o0 o1.
ok_bind z1 Ez1; ok_bind z2 Ez2 => -[<-] /=.
have [i1 [j1 [m1 [n1 [v1 [[/= Ei1 Ej1 Em1 En1] Ev1 [F1 Z1 S1] C1]]]]]] := stuff_cell_ok E1.
have [i2 [j2 [m2 [n2 [v2 [[/= Ei2 Ej2 Em2 En2] Ev2 [F2 Z2 S2] C2]]]]]] := stuff_cell_ok E2.
have [i3 [j3 [m3 [n3 [v3 [[/= Ei3 Ej3 Em3 En3] Ev3 [F3 Z3 S3] C3]]]]]] := stuff_cell_ok E3.
have [i4 [j4 [m4 [n4 [v4 [[/= Ei4 Ej4 Em4 En4] Ev4 [F4 Z4 S4] C4]]]]]] := stuff_cell_ok E4.
have [k1 [w1 [Ek1 Ew1 Sz1 Q1]]] := set_zcol_ok Ez1.
have [k2 [w2 [Ek2 Ew2 Sz2 Q2]]] := set_zcol_ok Ez2.
have i0 : forall i : 'I_2, 0 = i :> nat -> i = ord0 by move=> i H; apply: val_inj.
have i1' : forall i : 'I_2, 1 = i :> nat -> i = lift ord0 ord0 by move=> i H; apply: val_inj.
move: Ev1 Ev2 Ev3 Ev4 Ew1 Ew2.
rewrite (i0 _ Ei1) (i0 _ Ej1) (i0 _ Ei2) (i1' _ Ej2) (i1' _ Ei3) (i0 _ Ej3) (i1' _ Ei4) (i1' _ Ej4).
rewrite S3 S2 S1 Sz1 Z4 Z3 Z2 Z1 => Ev1 Ev2 Ev3 Ev4 Ew1 Ew2.
split.
- by rewrite Em1 Em4.
- by rewrite F4 F3 F2 F1.
- by rewrite S4 S3 S2 S1 Sz2 Sz1 Z4 Z3 Z2 Z1.
- move=> x y; rewrite C4 C3 C2 C1 !inE !ord_inj_eq -Em1 -En1 -Em2 -En2 -Em3 -En3 -Em4 -En4.
  rewrite /pos2.
  have [->|xa] := eqVneq (val x) a; have [->|ya] := eqVneq (val y) a;
    rewrite ?eqxx ?(negbTE ab) ?andbF ?andFb ?orbT ?orTb /=.
  + exact: Ev1.
  + by case: eqP => _ //; rewrite Ev2.
  + by rewrite andbT; case: eqP => _ //; rewrite Ev3.
  + by case: eqP => _ //=; case: eqP => _ //=; rewrite Ev4.
- move=> k; rewrite Q2 Q1 !inE !ord_inj_eq -Ek1 -Ek2 /pos2.
  have [->|ka] := eqVneq (val k) a; rewrite ?eqxx ?(negbTE ab) //=.
  by case: eqP => _; rewrite ?Ew2 ?Z4 ?Z3 ?Z2 ?Z1.
Qed.

End StuffFacts.

Section StuffTotal.

Import Ports.

Variables (Hz T : Type).

Notation ntwk := (network Hz T).

Lemma ord_of_lt_ok (P i : nat) (lt_i : i < P) : ord_of P i = Ok (Ordinal lt_i).
Proof.
rewrite /ord_of.
move: (erefl (i < P)); case: {2 3}(i < P) => H; last by rewrite lt_i in H.
by congr Ok; apply: val_inj.
Qed.

Lemma set_col_total (P : nat) (a : seq 'M[T]_P) (m n : nat) (src : seq T) :
  m < P -> n < P -> size src = size a ->
  exists2 a', set_col a m n src = Ok a' & size a' = size a.
Proof.
move=> mP nP sz; rewrite /set_col (ord_of_lt_ok mP) (ord_of_lt_ok nP) /=.
rewrite -sz assign_same /=; eexists; first by [].
by rewrite size_map size_zip sz minnn.
Qed.

Lemma set_zcol_total (P : nat) (z : seq 'rV[T]_P) (k : nat) (src : seq T) :
  k < P -> size src = size z ->
  exists2 z', set_zcol z k src = Ok z' & size z' = size z.
Proof.
move=> kP sz; rewrite /set_zcol (ord_of_lt_ok kP) /=.
rewrite -sz assign_same /=; eexists; first by [].
by rewrite size_map size_zip sz minnn.
Qed.

Lemma stuff_cell_total (tp : ntwk 2) (comp : ntwk 4) (im jn : nat * nat) :
  im.1 < 2 -> jn.1 < 2 -> im.2 < 4 -> jn.2 < 4 ->
  size (s tp) = size (s comp) ->
  exists2 comp', stuff_cell tp comp im jn = Ok comp'
               & size (s comp') = size (s comp) /\ z0 comp' = z0 comp.
Proof.
move=> i2 j2 m4 n4 sz; rewrite /stuff_cell /get_col.
rewrite (ord_of_lt_ok i2) (ord_of_lt_ok j2) /=.
have [s' -> sz'] := set_col_total m4 n4 (etrans (size_col (s tp) (Ordinal i2) (Ordinal j2)) sz).
by eexists.
Qed.

(** [stuff] succeeds when the ports are ports of the composite and the
    2-port has as many frequency points as the composite. *)
Lemma stuff_total (comp : ntwk 4) (tp : ntwk 2) (a b : nat) :
  a < 4 -> b < 4 ->
  size (s tp) = size (s comp) -> size (z0 tp) = size (z0 comp) ->
  exists comp', stuff comp tp a b = Ok comp'.
Proof.
move=> a4 b4 ss sz; rewrite /stuff /=.
have [c1 -> [s1 z1]] /= := @stuff_cell_total tp comp (0, a) (0, a) isT isT a4 a4 ss.
have [c2 -> [s2 z2]] /= := @stuff_cell_total tp c1 (0, a) (1, b) isT isT a4 b4 (etrans ss (esym s1)).
have ss2 : size (s tp) = size (s c2) by rewrite s2 s1.
have [c3 -> [s3 z3]] /= := @stuff_cell_total tp c2 (1, b) (0, a) isT isT b4 a4 ss2.
have ss3 : size (s tp) = size (s c3) by rewrite s3 s2 s1.
have [c4 -> [s4 z4]] /= := @stuff_cell_total tp c3 (1, b) (1, b) isT isT b4 b4 ss3.
have o0 : forall H, @Ordinal 2 0 H = ord0 by move=> H; apply: val_inj.
have o1 : forall H, @Ordinal 2 1 H = lift ord0 ord0 by move=> H; apply: val_inj.
rewrite o0 o1.
have sz4 : size (zcol (z0 tp) ord0) = size (z0 c4).
  by rewrite size_zcol z4 z3 z2 z1.
have [q1 -> y1] /= := set_zcol_total a4 sz4.
have sz5 : size (zcol (z0 tp) (lift ord0 ord0)) = size q1.
  by rewrite size_zcol y1 z4 z3 z2 z1.
have [q2 -> y2] /= := set_zcol_total b4 sz5.
by eexists.
Qed.

End StuffTotal.

(** ** The loop *)

Section DictFacts.

Variables (K : eqType) (V : Type).

Lemma dict_get_set (d : dict K V) (k k' : K) (v : V) :
  dict_get (dict_set d k v) k' = if k' == k then Some v else dict_get d k'.
Proof.
elim: d => [|[k0 v0] d IH] /=; first by rewrite eq_sym.
case: (eqVneq k0 k) => [->|ne] /=; first by rewrite eq_sym; case: eqP.
rewrite IH; case: (eqVneq k0 k') => [<-|//].
by rewrite (negbTE ne).
Qed.

End DictFacts.

Section LoopFacts.

Import Ports.

Variables (Hz T Noise : Type).
Variable tk : toolkit Hz T Noise.

Notation ntwk := (network Hz T).

Lemma in_written_cells (a b m n : nat) :
  ((m, n) \in written_cells a b) = (m \in [:: a; b]) && (n \in [:: a; b]).
Proof.
rewrite /written_cells /= !inE !xpair_eqE.
by case: (m == a); case: (m == b); case: (n == a); case: (n == b).
Qed.

(** What one successful iteration did. *)
Lemma body_ok (dut : ntwk 4) (loads : seq (ntwk 1)) (z_loads : seq (seq T))
    (noise : option Noise) (comp comp' : ntwk 4) (g g' : globals Hz T)
    (ab : seq nat) :
  body tk dut loads z_loads noise comp g ab = (Ok comp', g') ->
  exists a b tp tp',
    [/\ ab = [:: a; b],
        raw_measurement tk dut loads noise a b = Ok tp,
        renormalized tk z_loads tp a b = Ok tp',
        stuff comp tp' a b = Ok comp'
      & g' = Globals (dict_set (measured g) (a, b) tp)
                     (dict_set (measured_renorm g) (a, b) tp')].
Proof.
rewrite /body.
case: ab => [|a [|b [|? ?]]] //=.
case Er: (raw_measurement _ _ _ _ _ _) => [tp|e] //=.
case Ern: (renormalized _ _ _ _ _) => [tp'|e] //= [Es <-].
by exists a, b, tp, tp'.
Qed.

Lemma run_loop_cons (dut : ntwk 4) (loads : seq (ntwk 1))
    (z_loads : seq (seq T)) (noise : option Noise) (ab : seq nat)
    (rest : seq (seq nat)) (comp comp' : ntwk 4) (g g' : globals Hz T) :
  run_loop tk dut loads z_loads noise (ab :: rest) comp g = (Ok comp', g') ->
  exists comp1 g1,
    body tk dut loads z_loads noise comp g ab = (Ok comp1, g1) /\
    run_loop tk dut loads z_loads noise rest comp1 g1 = (Ok comp', g').
Proof.
rewrite /=; case: (body _ _ _ _ _ _ _) => [[comp1|e] g1] // H.
by exists comp1, g1.
Qed.

Lemma last_writer_cons (ab : seq nat) (rest : seq (seq nat)) (m n : nat) :
  last_writer (ab :: rest) m n =
  if last_writer rest m n is Some p then Some p
  else if (m \in ab) && (n \in ab) then Some ab else None.
Proof.
rewrite /last_writer /=.
case: ifP => _ //; last by case: (ohead _).
rewrite rev_cons; case: (rev _) => [|p r] //.
Qed.

Lemma last_writer_none (combos : seq (seq nat)) (m n : nat) (ab : seq nat) :
  last_writer combos m n = None -> (m \in ab) && (n \in ab) -> ab \notin combos.
Proof.
rewrite /last_writer => H mn.
set X := [seq p <- combos | (m \in p) && (n \in p)] in H.
have E : X = [::] by rewrite -(revK X); case: (rev X) H.
apply/negP => abin.
have : ab \in X by rewrite mem_filter mn.
by rewrite E.
Qed.

(** The dictionary entries of the pairs that the loop does not run over
    are left as they were. *)
Lemma run_loop_dict_frame (dut : ntwk 4) (loads : seq (ntwk 1))
    (z_loads : seq (seq T)) (noise : option Noise) (combos : seq (seq nat))
    (comp comp' : ntwk 4) (g g' : globals Hz T) (a b : nat) :
  run_loop tk dut loads z_loads noise combos comp g = (Ok comp', g') ->
  [:: a; b] \notin combos ->
  dict_get (measured g') (a, b) = dict_get (measured g) (a, b) /\
  dict_get (measured_renorm g') (a, b) = dict_get (measured_renorm g) (a, b).
Proof.
elim: combos comp g => [|p rest IH] comp g; first by case=> _ <-.
move/run_loop_cons=> [comp1 [g1 [Hb Hr]]]; rewrite inE negb_or => /andP[ne nin].
have [-> ->] := IH _ _ Hr nin.
have [a' [b' [tp [tp' [Ep _ _ _ ->]]]]] := body_ok Hb.
rewrite /= !dict_get_set.
have /negbTE-> // : (a, b) != (a', b').
by apply: contra ne => /eqP[-> ->]; rewrite Ep.
Qed.

(** The composite after the loop, cell by cell: a cell that no pair assigns
    is as it was; a cell that some pair assigns holds the column of the
    renormalized measurement of the last such pair, which is still the
    entry of that pair in [measured_renorm]. *)
Lemma run_loop_cells (dut : ntwk 4) (loads : seq (ntwk 1))
    (z_loads : seq (seq T)) (noise : option Noise) (combos : seq (seq nat))
    (comp0 comp : ntwk 4) (g0 g : globals Hz T) :
  all uniq combos ->
  run_loop tk dut loads z_loads noise combos comp0 g0 = (Ok comp, g) ->
  [/\ [/\ frequency comp = frequency comp0, size (s comp) = size (s comp0)
        & size (z0 comp) = size (z0 comp0)],
      forall x y : 'I_4, last_writer combos x y = None ->
        col (s comp) x y = col (s comp0) x y,
      forall (x y : 'I_4) p, last_writer combos x y = Some p ->
        exists a b r,
          [/\ p = [:: a; b], dict_get (measured_renorm g) (a, b) = Some r
            & assign (size (s comp0)) (col (s r) (pos2 a x) (pos2 a y))
              = Ok (col (s comp) x y)],
      forall k : 'I_4, last_writer combos k k = None ->
        zcol (z0 comp) k = zcol (z0 comp0) k
    & forall (k : 'I_4) p, last_writer combos k k = Some p ->
        exists a b r,
          [/\ p = [:: a; b], dict_get (measured_renorm g) (a, b) = Some r
            & assign (size (z0 comp0)) (zcol (z0 r) (pos2 a k))
              = Ok (zcol (z0 comp) k)]].
Proof.
elim: combos comp0 g0 => [|ab rest IH] comp0 g0 /=.
  by move=> _ [<- _]; split.
case/andP=> uab urest /run_loop_cons[comp1 [g1 [Hb Hr]]].
have [[F S Z] cN cS zN zS] := IH _ _ urest Hr.
have [a [b [tp [tp' [Eab _ _ Hs Eg]]]]] := body_ok Hb.
have ne : a != b by move: uab; rewrite Eab /= inE andbT.
have [[a4 b4] F1 [S1 Z1] C1 Q1] := stuff_ok ne Hs.
have dget : [:: a; b] \notin rest ->
    dict_get (measured_renorm g) (a, b) = Some tp'.
  move=> nin; have [_ ->] := run_loop_dict_frame Hr nin.
  by rewrite Eg /= dict_get_set eqxx.
split.
- by rewrite F S Z F1 S1 Z1.
- move=> x y; rewrite last_writer_cons.
  case E: (last_writer rest x y) => [p|] //.
  case: ifP => // W _; rewrite (cN _ _ E).
  by move: (C1 x y); rewrite -Eab W => -[].
- move=> x y p; rewrite last_writer_cons.
  case E: (last_writer rest x y) => [q|].
    by case=> <-; have [a' [b' [r [? ? ?]]]] := cS _ _ _ E; exists a', b', r; rewrite -S1.
  case: ifP => // W [<-]; exists a, b, tp'; split=> //.
    by apply: dget; apply: last_writer_none E _; rewrite -Eab.
  by rewrite (cN _ _ E); move: (C1 x y); rewrite -Eab W.
- move=> k; rewrite last_writer_cons.
  case E: (last_writer rest k k) => [p|] //.
  rewrite andbb; case: ifP => // W _; rewrite (zN _ E).
  by move: (Q1 k); rewrite -Eab W => -[].
- move=> k p; rewrite last_writer_cons.
  case E: (last_writer rest k k) => [q|].
    by case=> <-; have [a' [b' [r [? ? ?]]]] := zS _ _ E; exists a', b', r; rewrite -Z1.
  rewrite andbb; case: ifP => // W [<-]; exists a, b, tp'; split=> //.
    by apply: dget; apply: last_writer_none E _; rewrite -Eab W.
  by rewrite (zN _ E); move: (Q1 k); rewrite -Eab W.
Qed.

End LoopFacts.

(** ** Claims about the loop *)

Section LoopClaims.

Import Ports.

Variables (Hz T Noise : Type).
Variable tk : toolkit Hz T Noise.

Notation ntwk := (network Hz T).

Lemma port_combos4_uniq : all uniq (port_combos 4).
Proof. by []. Qed.

(** C7, first half: one iteration of the loop, for the pair [(a, b)],
    leaves every scattering cell outside [(a,a)], [(a,b)], [(b,a)], [(b,b)]
    and every impedance slot other than [a] and [b] as it was, at every
    frequency point. Second half, as the code has it: the cells assigned
    for two different pairs of a 4-port are not disjoint in general; what
    they can share is a diagonal cell [(k, k)] of a port [k] that belongs to
    both pairs (and then they do share it). *)
Theorem pair_writes (dut : ntwk 4) (loads : seq (ntwk 1))
    (z_loads : seq (seq T)) (noise : option Noise) (comp comp' : ntwk 4)
    (g g' : globals Hz T) (a b : nat) :
  a != b ->
  body tk dut loads z_loads noise comp g [:: a; b] = (Ok comp', g') ->
  [/\ forall x y : 'I_4, (val x, val y) \notin written_cells a b ->
        col (s comp') x y = col (s comp) x y,
      forall k : 'I_4, val k \notin [:: a; b] ->
        zcol (z0 comp') k = zcol (z0 comp) k
    & forall a' b' m n : nat,
        [:: a; b] \in port_combos 4 -> [:: a'; b'] \in port_combos 4 ->
        [:: a; b] != [:: a'; b'] ->
        ((m, n) \in written_cells a b) && ((m, n) \in written_cells a' b')
        = [&& m == n, m \in [:: a; b] & m \in [:: a'; b']]].
Proof.
move=> ne /body_ok[a0 [b0 [tp [tp' [[<- <-] _ _ Hs _]]]]].
have [_ _ _ C Q] := stuff_ok ne Hs.
split.
- by move=> x y; rewrite in_written_cells => /negbTE W; move: (C x y); rewrite W => -[].
- by move=> k /negbTE W; move: (Q k); rewrite W => -[].
- move=> a' b' m n; rewrite !in_written_cells.
  move: a b {ne Hs C Q}; apply: combos4_ind; move: a' b'; apply: combos4_ind => //.
  all: move=> _; rewrite !inE.
  all: by case: m => [|[|[|[|m]]]]; case: n => [|[|[|[|n]]]]; rewrite //= andbF.
Qed.

(** C7 as stated fails: the pairs [(0, 1)] and [(0, 2)] both assign the
    cell [(0, 0)] (and the impedance slot 0). *)
Lemma pair_writes_overlap :
  [/\ [:: 0; 1] \in port_combos 4, [:: 0; 2] \in port_combos 4,
      (0, 0) \in written_cells 0 1 & (0, 0) \in written_cells 0 2].
Proof. by []. Qed.

(** C9: when the loop has run over the six pairs of a 4-port, the diagonal
    cell [(k, k)] of the composite, and its impedance slot [k], hold what
    the last pair containing [k] put there: the column of the renormalized
    2-port kept in [measured_renorm] for that pair. Earlier assignments to
    the same cell are overwritten, whatever their values. *)
Theorem last_write_wins (dut : ntwk 4) (loads : seq (ntwk 1))
    (z_loads : seq (seq T)) (noise : option Noise) (comp0 comp : ntwk 4)
    (g0 g : globals Hz T) (k : 'I_4) :
  run_loop tk dut loads z_loads noise (port_combos 4) comp0 g0 = (Ok comp, g) ->
  exists a b r,
    [/\ last_writer (port_combos 4) k k = Some [:: a; b],
        dict_get (measured_renorm g) (a, b) = Some r,
        assign (size (s comp0)) (col (s r) (pos2 a k) (pos2 a k))
        = Ok (col (s comp) k k)
      & assign (size (z0 comp0)) (zcol (z0 r) (pos2 a k))
        = Ok (zcol (z0 comp) k)].
Proof.
move=> /(run_loop_cells port_combos4_uniq)[_ _ cS _ zS].
have [p Ep] : exists p, last_writer (port_combos 4) k k = Some p.
  by case: k => [[|[|[|[|k]]]] Hk] //; eexists.
have [a [b [r [Eab Dr Hc]]]] := cS k k p Ep.
have [a' [b' [r' [Eab' Dr' Hq]]]] := zS k p Ep.
move: Eab' Dr' Hq; rewrite Eab => -[<- <-]; rewrite Dr => -[<-] Hq.
by exists a, b, r; rewrite Ep Eab.
Qed.

(** The last pair of each port. *)
Lemma last_pairs_4port :
  [/\ last_writer (port_combos 4) 0 0 = Some [:: 0; 3],
      last_writer (port_combos 4) 1 1 = Some [:: 1; 3],
      last_writer (port_combos 4) 2 2 = Some [:: 2; 3]
    & last_writer (port_combos 4) 3 3 = Some [:: 2; 3]].
Proof. by []. Qed.

Lemma list_get_nseq (X : Type) (n k : nat) (x : X) :
  list_get (nseq n x) k = if k < n then Ok x else Err IndexError.
Proof.
by rewrite /list_get; elim: n k => [|n IH] [|k] //=.
Qed.

Variable fifty : T.

(** What the loop leaves in the dictionaries for a pair it ran over. *)
Lemma run_loop_entries (dut : ntwk 4) (loads : seq (ntwk 1))
    (zl : seq (seq T)) (noise : option Noise) (combos : seq (seq nat))
    (comp0 comp : ntwk 4) (g0 g : globals Hz T) (a b : nat) :
  uniq combos ->
  run_loop tk dut loads zl noise combos comp0 g0 = (Ok comp, g) ->
  [:: a; b] \in combos ->
  exists tp tp',
    [/\ raw_measurement tk dut loads noise a b = Ok tp,
        dict_get (measured g) (a, b) = Some tp,
        renormalized tk zl tp a b = Ok tp'
      & dict_get (measured_renorm g) (a, b) = Some tp'].
Proof.
elim: combos comp0 g0 => [|p rest IH] comp0 g0 //= /andP[nin urest].
move/run_loop_cons=> [comp1 [g1 [Hb Hr]]].
case: (boolP ([:: a; b] \in rest)) => [abin _|abnin]; first exact: IH Hr abin.
rewrite inE (negbTE abnin) orbF => /eqP Ep.
have [a' [b' [tp [tp' [Eab R N _ Eg]]]]] := body_ok Hb.
move: Eab; rewrite -Ep => -[Ea Eb]; rewrite -{a'}Ea -{b'}Eb in R N Eg.
have [-> ->] := run_loop_dict_frame Hr abnin.
by exists tp, tp'; rewrite Eg /= !dict_get_set !eqxx.
Qed.

Lemma c_cols (x y : seq T) (zn : seq 'rV[T]_2) :
  c_ x y = Ok zn -> zcol zn ord0 = x /\ zcol zn (lift ord0 ord0) = y.
Proof.
rewrite /c_; case: eqP => // sz [<-]; rewrite /zcol -!map_comp; split.
  rewrite -[RHS](@unzip1_zip _ _ x y) ?sz //.
  by apply: eq_map => xy /=; rewrite mxE.
rewrite -[RHS](@unzip2_zip _ _ x y) ?sz //.
by apply: eq_map => xy /=; rewrite mxE.
Qed.

(** C10: [tippits] closes every port on the same load [wg.load(gamma)].
    Without noise and on empty dictionaries it is the composer run on four
    copies of that load. In any call that returns, for each pair [(a, b)]
    the raw measurement kept in [measured] is the device with its two other
    ports closed on that one load, and the measurement is renormalized to
    the impedance of that one load on both of its ports. The function takes
    one reflection coefficient: it cannot give different loads to
    different ports. *)
Theorem tippits_one_load (dut : ntwk 4) (gamma : T) (noise : option Noise)
    (g : globals Hz T) :
  tippits tk fifty dut gamma None (Globals [::] [::])
  = composer tk fifty dut (nseq 4 (wg_load tk gamma)) /\
  forall comp g', tippits tk fifty dut gamma noise g = (Ok comp, g') ->
    exists2 zL, z_flatten tk (wg_load tk gamma) = Ok zL &
    forall a b, [:: a; b] \in port_combos 4 ->
      exists c d e three_port two_port z_new r,
        [/\ plan 4 a b = Ok (c, d, e),
            rf_connect tk dut c (wg_load tk gamma) 0 = Ok three_port /\
            rf_connect tk three_port e (wg_load tk gamma) 0 = Ok two_port,
            dict_get (measured g') (a, b)
            = Some (if noise is Some nz
                    then ntwk_add_noise_polar tk nz (a, b) two_port
                    else two_port),
            zcol z_new ord0 = zL /\ zcol z_new (lift ord0 ord0) = zL
          & ntwk_renormalize tk
              (if noise is Some nz
               then ntwk_add_noise_polar tk nz (a, b) two_port
               else two_port) z_new = Ok r /\
            dict_get (measured_renorm g') (a, b) = Some r].
Proof.
split=> [//|comp g']; rewrite /tippits.
set L := wg_load tk gamma.
have -> : tippits_loads tk (arange (nports dut)) gamma = [:: L; L; L; L] by [].
case Ez: (z_loads_of _ _) => [zl|] //.
case Er: (run_loop _ _ _ _ _ _ _ _) => [[c1|?] g1] // [_ Eg].
rewrite -{g'}Eg.
have [zL EL Ezl] : exists2 zL, z_flatten tk L = Ok zL
                             & zl = [:: zL; zL; zL; zL].
  move: Ez; rewrite /z_loads_of /=; case: (z_flatten tk L) => [zL|] //=.
  by rewrite !eqxx /= => -[<-]; exists zL.
exists zL => // a b ab.
have u4 : uniq (port_combos 4) by rewrite port_combos4.
have [tp [tp' [R D N D']]] := run_loop_entries u4 Er ab.
move: a b ab tp tp' R D N D'; rewrite Ezl.
apply: combos4_ind => tp tp'; rewrite /raw_measurement /renormalized /=.
all: ok_bind three E3; ok_bind two E2 => -[<-] D.
all: ok_bind zn Ec => Hr D'; have [C0 C1] := c_cols Ec.
all: by do 3!eexists; exists three, two, zn, tp'; split; first by [].
Qed.

End LoopClaims.

(** ** Impedance and scattering matrices *)

Section AlgebraFacts.

Import GRing.Theory Num.Theory.
Import Skrf.
Local Open Scope ring_scope.

Variable F : numFieldType.
Variable w : F -> F.

Lemma two_neq0 : (2 : F) != 0.
Proof. by rewrite pnatr_eq0. Qed.

Lemma invmx_eq (n : nat) (A B : 'M[F]_n) : A *m B = 1%:M -> invmx A = B.
Proof.
move=> AB; have [uA _] := mulmx1_unit AB.
by rewrite -[LHS]mulmx1 -AB mulKmx.
Qed.

Lemma regular_z0P (n : nat) (z : 'rV[F]_n) :
  reflect (forall k, z 0 k != 0 /\ w (z 0 k) != 0) (regular_z0 w z).
Proof.
apply: (iffP forallP) => H k; first by case/andP: (H k).
by case: (H k) => -> ->.
Qed.

Lemma unitmx_diag (n : nat) (z : 'rV[F]_n) :
  (forall k, z 0 k != 0) -> diag_mx z \in unitmx.
Proof.
move=> H; rewrite unitmxE det_diag unitfE.
by apply/prodf_neq0 => k _.
Qed.

Lemma normalizeK (n : nat) (z : 'rV[F]_n) (S : 'M[F]_n) :
  regular_z0 w z -> normalize w z (unnormalize w z S) = S.
Proof.
move/regular_z0P=> H; apply/matrixP => i j; rewrite !mxE.
have [_ wi] := H i; have [_ wj] := H j.
by field; rewrite wi wj.
Qed.

Lemma unnormalizeK (n : nat) (z : 'rV[F]_n) (U : 'M[F]_n) :
  regular_z0 w z -> unnormalize w z (normalize w z U) = U.
Proof.
move/regular_z0P=> H; apply/matrixP => i j; rewrite !mxE.
have [_ wi] := H i; have [_ wj] := H j.
by field; rewrite wi wj.
Qed.

(** The reflection matrix in terms of the inverse of [Z + Z0]. *)
Lemma u_of_zE (n : nat) (Z : 'M[F]_n) (z : 'rV[F]_n) :
  Z + diag_mx z \in unitmx ->
  u_of_z Z z = 1%:M - 2 *: (diag_mx z *m invmx (Z + diag_mx z)).
Proof.
move=> uM; rewrite /u_of_z.
have -> : Z - diag_mx z = (Z + diag_mx z) - 2 *: diag_mx z.
  by rewrite scaler_nat mulr2n opprD addrACA subrr addr0.
by rewrite mulmxBl mulmxV // -scalemxAl.
Qed.

(** From impedances to reflections and back. *)
Lemma u_of_zK (n : nat) (Z : 'M[F]_n) (z : 'rV[F]_n) :
  (forall k, z 0 k != 0) -> Z + diag_mx z \in unitmx ->
  (1%:M - u_of_z Z z \in unitmx) /\ z_of_u (u_of_z Z z) z = Z.
Proof.
move=> z0 uM; have uD := unitmx_diag z0.
set M := Z + diag_mx z in uM *.
have E1 : 1%:M - u_of_z Z z = 2 *: (diag_mx z *m invmx M).
  by rewrite u_of_zE // opprB addrC subrK.
have E2 : 1%:M + u_of_z Z z = 2 *: (Z *m invmx M).
  rewrite u_of_zE // addrA -mulr2n -scaler_nat -[1%:M in LHS](mulmxV uM).
  by rewrite -scalerBr -mulmxBl /M addrK.
have u1 : 1%:M - u_of_z Z z \in unitmx.
  by rewrite E1 unitmxZ ?unitfE ?two_neq0 // unitmx_mul uD unitmx_inv.
split=> //; rewrite /z_of_u E2 E1.
rewrite invmxZ -?E1 // -scalemxAl -scalemxAr scalerA mulVf ?two_neq0 // scale1r.
have -> : invmx (diag_mx z *m invmx M) = M *m invmx (diag_mx z).
  by apply: invmx_eq; rewrite mulmxA -[_ *m _ *m M]mulmxA mulVmx // mulmx1 mulmxV.
have -> : Z *m invmx M = 1%:M - diag_mx z *m invmx M.
  by rewrite -[1%:M](mulmxV uM) -mulmxBl /M addrK.
rewrite mulmxBr mulmx1 mulmxBl mulmxKV // mulmxA mulmxKV // mulmxV // mul1mx.
by rewrite /M addrK.
Qed.

(** From reflections to impedances and back. *)
Lemma z_of_uK (n : nat) (U : 'M[F]_n) (z : 'rV[F]_n) :
  (forall k, z 0 k != 0) -> 1%:M - U \in unitmx ->
  (z_of_u U z + diag_mx z \in unitmx) /\ u_of_z (z_of_u U z) z = U.
Proof.
move=> z0 uA; have uD := unitmx_diag z0.
set A := 1%:M - U in uA *.
have EU : 1%:M + U = 2 *: 1%:M - A.
  by rewrite /A opprB addrCA scaler_nat mulr2n addrK addrC.
have EP : z_of_u U z + diag_mx z = 2 *: (invmx A *m diag_mx z).
  rewrite /z_of_u -/A EU mulmxBr mulVmx // mulmxBl mul1mx subrK.
  by rewrite -scalemxAr mulmx1 scalemxAl.
have EM : z_of_u U z - diag_mx z = 2 *: (invmx A *m diag_mx z) - 2 *: diag_mx z.
  by rewrite -EP scaler_nat [in RHS]mulr2n opprD addrACA subrr addr0.
have uP : z_of_u U z + diag_mx z \in unitmx.
  by rewrite EP unitmxZ ?unitfE ?two_neq0 // unitmx_mul unitmx_inv uA.
split=> //; rewrite /u_of_z EM EP invmxZ; first by move: uP; rewrite EP.
rewrite -scalerBr -scalemxAl -scalemxAr.
rewrite scalerA mulfV ?two_neq0 // scale1r.
have -> : invmx (invmx A *m diag_mx z) = invmx (diag_mx z) *m A.
  by apply: invmx_eq; rewrite mulmxA -[_ *m _ *m invmx _]mulmxA mulmxV // mulmx1 mulVmx.
rewrite mulmxBl mulmxA -[_ *m _ *m invmx _]mulmxA mulmxV // mulmx1 mulVmx //.
by rewrite mulmxA mulmxV // mul1mx /A opprB addrC subrK.
Qed.

(** The conversions of one frequency point. *)
Lemma z2s_s2z_mx (n : nat) (S : 'M[F]_n) (z : 'rV[F]_n) :
  regular_z0 w z -> 1%:M - unnormalize w z S \in unitmx ->
  (s2z_mx w S z + diag_mx z \in unitmx) /\ z2s_mx w (s2z_mx w S z) z = S.
Proof.
move=> rz uA; have z0 k : z 0 k != 0 by case: (regular_z0P _ rz k).
have [uP E] := z_of_uK z0 uA.
by split=> //; rewrite /z2s_mx /s2z_mx E normalizeK.
Qed.

Lemma s2z_z2s_mx (n : nat) (Z : 'M[F]_n) (z : 'rV[F]_n) :
  regular_z0 w z -> Z + diag_mx z \in unitmx ->
  (1%:M - unnormalize w z (z2s_mx w Z z) \in unitmx) /\
  s2z_mx w (z2s_mx w Z z) z = Z.
Proof.
move=> rz uM; have z0 k : z 0 k != 0 by case: (regular_z0P _ rz k).
have [uA E] := u_of_zK z0 uM.
by rewrite /z2s_mx /s2z_mx unnormalizeK.
Qed.

(** The Schur complement of an invertible matrix on a nonzero pivot is
    invertible; its inverse is the inverse of the matrix without the row
    and the column of the pivot. *)
Lemma schur_inv (n : nat) (M : 'M[F]_n.+1) (c : 'I_n.+1) :
  M \in unitmx -> M c c != 0 ->
  schur M c *m mxsub (lift c) (lift c) (invmx M) = 1%:M.
Proof.
move=> uM Mcc; set N := invmx M.
have MN x y :
    \sum_k M x (lift c k) * N (lift c k) y = (x == y)%:R - M x c * N c y.
  have := congr1 (fun A : 'M_n.+1 => A x y) (mulmxV uM).
  rewrite !mxE (bigD1_ord c) //= -/N => <-.
  by rewrite [X in X - _]addrC addrK.
apply/matrixP => i j; rewrite !mxE.
rewrite (eq_bigr (fun k =>
    M (lift c i) (lift c k) * N (lift c k) (lift c j)
    - (M (lift c i) c / M c c) * (M c (lift c k) * N (lift c k) (lift c j))));
  first by move=> k _; rewrite !mxE; field.
rewrite sumrB -mulr_sumr !MN (inj_eq lift_inj) eq_liftF sub0r.
by field.
Qed.

Lemma unitmx_schur (n : nat) (M : 'M[F]_n.+1) (c : 'I_n.+1) :
  M \in unitmx -> M c c != 0 ->
  (schur M c \in unitmx) /\
  invmx (schur M c) = mxsub (lift c) (lift c) (invmx M).
Proof.
move=> uM Mcc; have E := schur_inv uM Mcc.
by split; [case: (mulmx1_unit E) | exact: invmx_eq].
Qed.

(** Terminating port [c] with the impedance that is also the reference of
    port [c] is a Schur complement of [Z + Z0]. *)
Lemma terminate_schur (n : nat) (Z : 'M[F]_n.+1) (zeta : 'rV[F]_n.+1)
    (c : 'I_n.+1) :
  terminate_z Z c (zeta 0 c) + diag_mx (col' c zeta)
  = schur (Z + diag_mx zeta) c.
Proof.
apply/matrixP => i j; rewrite !mxE (inj_eq lift_inj) lift_eqF eq_liftF eqxx.
by rewrite !mulr0n !addr0 mulr1n addrAC.
Qed.

(** The step behind Tippet's technique: when port [c] is closed on the very
    impedance it is referenced to, the scattering matrix of what is left is
    the scattering matrix of the whole without row and column [c]. *)
Lemma terminate_u (n : nat) (Z : 'M[F]_n.+1) (zeta : 'rV[F]_n.+1)
    (c : 'I_n.+1) :
  Z + diag_mx zeta \in unitmx -> Z c c + zeta 0 c != 0 ->
  (terminate_z Z c (zeta 0 c) + diag_mx (col' c zeta) \in unitmx) /\
  u_of_z (terminate_z Z c (zeta 0 c)) (col' c zeta)
  = mxsub (lift c) (lift c) (u_of_z Z zeta).
Proof.
move=> uM piv; set M := Z + diag_mx zeta in uM.
have Mcc : M c c != 0 by rewrite !mxE eqxx mulr1n.
have [uS ES] := unitmx_schur uM Mcc.
rewrite terminate_schur; split=> //.
rewrite !u_of_zE ?terminate_schur // ES -/M !mul_diag_mx.
by apply/matrixP => i j; rewrite !mxE (inj_eq lift_inj).
Qed.

Lemma terminate_s (n : nat) (Z : 'M[F]_n.+1) (zeta : 'rV[F]_n.+1)
    (c : 'I_n.+1) :
  Z + diag_mx zeta \in unitmx -> Z c c + zeta 0 c != 0 ->
  z2s_mx w (terminate_z Z c (zeta 0 c)) (col' c zeta)
  = mxsub (lift c) (lift c) (z2s_mx w Z zeta).
Proof.
move=> uM piv; have [_ E] := terminate_u uM piv.
by rewrite /z2s_mx E; apply/matrixP => i j; rewrite !mxE.
Qed.

(** The connector with a one-port load is that termination. *)
Lemma join_den_load (n : nat) (ZA : 'M[F]_n.+1) (ZB : 'M[F]_1) (k : 'I_n.+1) :
  join_den ZA ZB k ord0 = ZA k k + ZB ord0 ord0.
Proof.
by rewrite /join_den block_mxEul block_mxEdr block_mxEur block_mxEdl !mxE !subr0.
Qed.

Lemma survivor_load (n : nat) (k : 'I_n.+1) (i : 'I_(n.+1.-1 + 1.-1))
    (i' : 'I_n) :
  i = i' :> nat -> @survivor n.+1 1 k ord0 i = lshift 1 (lift k i').
Proof.
move=> E; rewrite /survivor; case: splitP => [i0 Ei|[]//].
by congr (lshift _ (lift _ _)); apply: val_inj; rewrite /= -Ei.
Qed.

Lemma connect_z_load (n : nat) (ZA : 'M[F]_n.+1) (ZB : 'M[F]_1) (k : 'I_n.+1)
    (i j : 'I_(n.+1.-1 + 1.-1)) (i' j' : 'I_n) :
  i = i' :> nat -> j = j' :> nat ->
  connect_z ZA ZB k ord0 i j = terminate_z ZA k (ZB ord0 ord0) i' j'.
Proof.
move=> Ei Ej; rewrite /connect_z mxE /join_z mxE join_den_load.
rewrite (survivor_load k Ei) (survivor_load k Ej).
rewrite !block_mxEul !block_mxEur !block_mxEdl !mxE !subr0.
by rewrite sub0r mulrN mulNr.
Qed.

Lemma connect_z0_load (n : nat) (zA : 'rV[F]_n.+1) (zB : 'rV[F]_1) (k : 'I_n.+1)
    (i : 'I_(n.+1.-1 + 1.-1)) (i' : 'I_n) :
  i = i' :> nat -> connect_z0 zA zB k ord0 0 i = col' k zA 0 i'.
Proof.
by move=> Ei; rewrite /connect_z0 mxE (survivor_load k Ei) row_mxEl [RHS]mxE.
Qed.

End AlgebraFacts.

(** ** The library over the frequency axis *)

Section ModelFacts.

Import GRing.Theory Num.Theory.
Import Skrf.
Local Open Scope ring_scope.

Variable F : numFieldType.
Variable w : F -> F.
Variable Hz : eqType.

Notation ntwk := (network Hz F).

Lemma mapM_iota (U : Type) (f : nat -> result U) (g : nat -> U) (n : nat) :
  (forall i, (i < n)%N -> f i = Ok (g i)) -> mapM f (iota 0 n) = Ok (mkseq g n).
Proof.
by move=> H; apply: mapM_ok => i; rewrite mem_iota add0n => /H.
Qed.

Lemma z_of_ok (P : nat) (N : ntwk P) (n : nat) :
  size (s N) = n -> size (z0 N) = n ->
  (forall f, (f < n)%N -> z_defined w N f) ->
  z_of w N = Ok (mkseq (z_at w N) n).
Proof.
move=> sn zn H; rewrite /z_of /s2z_arr sn zn eqxx.
by apply: mapM_iota => f /H; rewrite /s2z_pt /z_defined /pt_s /pt_z0
  => /andP[-> _].
Qed.

Lemma z2s_arr_ok (P : nat) (Zs : seq 'M[F]_P) (zs : seq 'rV[F]_P) (n : nat) :
  size Zs = n -> size zs = n ->
  (forall f, (f < n)%N ->
     regular_z0 w (nth 0 zs f) && (nth 0 Zs f + diag_mx (nth 0 zs f) \in unitmx)) ->
  z2s_arr w Zs zs = Ok (mkseq (fun f => z2s_mx w (nth 0 Zs f) (nth 0 zs f)) n).
Proof.
move=> sn zn H; rewrite /z2s_arr sn zn eqxx.
by apply: mapM_iota => f /H; rewrite /z2s_pt => ->.
Qed.

Lemma renormalize_ok (P : nat) (N : ntwk P) (z_new : seq 'rV[F]_P) (n : nat) :
  size (s N) = n -> size (z0 N) = n -> size z_new = n ->
  (forall f, (f < n)%N ->
     [&& z_defined w N f, regular_z0 w (nth 0 z_new f)
       & z_at w N f + diag_mx (nth 0 z_new f) \in unitmx]) ->
  renormalize w N z_new
  = Ok (Network (frequency N)
          (mkseq (fun f => z2s_mx w (z_at w N f) (nth 0 z_new f)) n) z_new).
Proof.
move=> sn zn nn H; rewrite /renormalize (z_of_ok sn zn) /=;
  first by move=> f /H /and3P[].
rewrite (@z2s_arr_ok _ _ _ n) ?size_mkseq //=;
  first by move=> f fn; rewrite nth_mkseq //; case/and3P: (H f fn) => _ -> ->.
congr (Ok (Network _ _ _)); apply/eq_in_map => f.
by rewrite mem_iota add0n => fn; rewrite nth_mkseq.
Qed.

(** Closing port [k] of [A] on the one-port [B]. *)
Lemma connect_load_ok (m : nat) (A : ntwk m.+1) (B : ntwk 1) (k : 'I_m.+1)
    (n : nat) :
  frequency A = frequency B ->
  [/\ size (s A) = n, size (z0 A) = n, size (s B) = n & size (z0 B) = n] ->
  (forall f, (f < n)%N ->
     [&& z_defined w A f, z_defined w B f,
         join_den (z_at w A f) (z_at w B f) k ord0 != 0,
         regular_z0 w (connect_z0 (pt_z0 A f) (pt_z0 B f) k ord0)
       & connect_z (z_at w A f) (z_at w B f) k ord0
         + diag_mx (connect_z0 (pt_z0 A f) (pt_z0 B f) k ord0) \in unitmx]) ->
  connect w A k B 0
  = Ok (Network (frequency A)
          (mkseq (fun f => z2s_mx w (connect_z (z_at w A f) (z_at w B f) k ord0)
                             (connect_z0 (pt_z0 A f) (pt_z0 B f) k ord0)) n)
          (mkseq (fun f => connect_z0 (pt_z0 A f) (pt_z0 B f) k ord0) n)).
Proof.
move=> fAB [sA zA sB zB] H; rewrite /connect fAB eqxx [in LHS]/=.
have -> : insub 0%N = Some (@ord0 0) by rewrite insubT //; congr Some; apply: val_inj.
rewrite valK /=.
rewrite (z_of_ok sA zA) /=; first by move=> f /H /and5P[].
rewrite (z_of_ok sB zB) /=; first by move=> f /H /and5P[].
rewrite !size_mkseq eqxx /=.
rewrite (@mapM_iota _ _ (fun f =>
   (z2s_mx w (connect_z (z_at w A f) (z_at w B f) k ord0)
             (connect_z0 (pt_z0 A f) (pt_z0 B f) k ord0),
    connect_z0 (pt_z0 A f) (pt_z0 B f) k ord0))) /=.
- move=> f fn; case/and5P: (H f fn) => _ _ dn rz uM.
  rewrite /connect_pt /= !nth_mkseq //.
  by rewrite (negbTE dn) /z2s_pt -/(pt_z0 A f) -/(pt_z0 B f) rz uM.
- by rewrite /unzip1 /unzip2 /mkseq -!map_comp.
Qed.

End ModelFacts.
(** ** An exact run of the composer on the library *)

Section RunFacts.

Import GRing.Theory Num.Theory.
Import Skrf Ports.
Local Open Scope ring_scope.

Variable F : numFieldType.
Variable w : F -> F.
Variable Hz : eqType.
Variable Noise : Type.

Notation ntwk := (network Hz F).

Variables (dut : ntwk 4) (loads : seq (ntwk 1)) (n : nat).

Notation load k := (nth (no_network F Hz 1) loads k).

Hypothesis dut_shape : size (s dut) = n /\ size (z0 dut) = n.
Hypothesis loads_shape : size loads = 4%N /\
  forall k : 'I_4, [/\ frequency (load k) = frequency dut,
                       size (s (load k)) = n & size (z0 (load k)) = n].
Hypothesis regular : forall f, (f < n)%N -> regular_at w dut loads f.

Lemma col'_regular (m : nat) (z : 'rV[F]_m.+1) (c : 'I_m.+1) :
  regular_z0 w z -> regular_z0 w (col' c z).
Proof.
move/regular_z0P=> H; apply/regular_z0P => k.
by rewrite !mxE; apply: H.
Qed.

Lemma load_z_at (k : 'I_4) (f : nat) :
  z_at w (load k) f ord0 ord0 = loads_z w loads f 0 k.
Proof. by rewrite /loads_z mxE. Qed.

Lemma reg_pair (f : nat) (c : 'I_4) (e : 'I_3) :
  (f < n)%N -> (c <= e)%N ->
  pair_regular (z_at w dut f) (pt_z0 dut f) (loads_z w loads f) c e.
Proof.
move=> /regular /and5P[_ _ _ _ /forallP/(_ c)/forallP/(_ e)/implyP H] ce.
exact: H.
Qed.

(** The first termination. *)
Lemma connect_dut (c : 'I_4) (e : 'I_3) :
  (c <= e)%N ->
  connect w dut c (load c) 0 = Ok (three_port_net w dut loads c n).
Proof.
move=> ce; have [sd zd] := dut_shape; have [_ ls] := loads_shape.
have [fl sl zl] := ls c.
have Ez0 f : connect_z0 (pt_z0 dut f) (pt_z0 (load c) f) c ord0
              = col' c (pt_z0 dut f).
  by apply/rowP => i; apply: connect_z0_load.
have Ez f : connect_z (z_at w dut f) (z_at w (load c) f) c ord0
            = three_port_z w dut loads c f.
  apply/matrixP => i j.
  by rewrite (connect_z_load _ _ _ (erefl _) (erefl _)) load_z_at.
have H f : (f < n)%N ->
    [&& z_defined w dut f, z_defined w (load c) f,
        join_den (z_at w dut f) (z_at w (load c) f) c ord0 != 0,
        regular_z0 w (connect_z0 (pt_z0 dut f) (pt_z0 (load c) f) c ord0)
      & connect_z (z_at w dut f) (z_at w (load c) f) c ord0
        + diag_mx (connect_z0 (pt_z0 dut f) (pt_z0 (load c) f) c ord0)
        \in unitmx].
  move=> fn; have /and4P[p1 u1 _ _] := reg_pair fn ce.
  have /and5P[zdut /forallP/(_ c) zld _ _ _] := regular fn.
  have rzd : regular_z0 w (pt_z0 dut f) by case/andP: zdut.
  by rewrite zdut zld join_den_load load_z_at p1 Ez0 Ez col'_regular.
rewrite (connect_load_ok (esym fl) _ H) //.
by congr (Ok (Network _ _ _)); apply/eq_in_map => f _; rewrite ?Ez Ez0.
Qed.

(** A network produced by [z2s] at regular impedances has impedance
    parameters again: the ones it was made from. *)
Lemma z_defined_z2s (P : nat) (N : ntwk P) (f : nat) (Z : 'M[F]_P)
    (z : 'rV[F]_P) :
  pt_s N f = z2s_mx w Z z -> pt_z0 N f = z ->
  regular_z0 w z -> Z + diag_mx z \in unitmx ->
  z_defined w N f /\ z_at w N f = Z.
Proof.
move=> Es Ez rz uM; rewrite /z_defined /z_at Es Ez rz /=.
by have [-> ->] := s2z_z2s_mx rz uM.
Qed.

Lemma three_port_z_defined (c : 'I_4) (e : 'I_3) (f : nat) :
  (c <= e)%N -> (f < n)%N ->
  z_defined w (three_port_net w dut loads c n) f /\
  z_at w (three_port_net w dut loads c n) f = three_port_z w dut loads c f.
Proof.
move=> ce fn; have /and4P[_ u1 _ _] := reg_pair fn ce.
have /and5P[/andP[rzd _] _ _ _ _] := regular fn.
apply: z_defined_z2s (col'_regular c rzd) u1.
- by rewrite /pt_s /= nth_mkseq.
- by rewrite /pt_z0 /= nth_mkseq.
Qed.

(** The second termination: the raw measurement. *)
Lemma connect_three_port (c : 'I_4) (e : 'I_3) :
  (c <= e)%N ->
  connect w (three_port_net w dut loads c n) e (load (lift c e)) 0
  = Ok (raw_net w dut loads c e n).
Proof.
move=> ce; have [sd zd] := dut_shape; have [_ ls] := loads_shape.
have [fl sl zl] := ls (lift c e).
set N3 := three_port_net w dut loads c n.
set L := load (lift c e).
have pz0 f : (f < n)%N -> pt_z0 N3 f = col' c (pt_z0 dut f).
  by move=> fn; rewrite /pt_z0 /= nth_mkseq.
have Ez0 f : connect_z0 (pt_z0 N3 f) (pt_z0 L f) e ord0 = col' e (pt_z0 N3 f).
  by apply/rowP => i; apply: connect_z0_load.
have Ez f : (f < n)%N ->
    connect_z (z_at w N3 f) (z_at w L f) e ord0 = two_port_z w dut loads c e f.
  move=> fn; have [_ ->] := three_port_z_defined ce fn.
  apply/matrixP => i j.
  by rewrite (connect_z_load _ _ _ (erefl _) (erefl _)) load_z_at.
have H f : (f < n)%N ->
    [&& z_defined w N3 f, z_defined w L f,
        join_den (z_at w N3 f) (z_at w L f) e ord0 != 0,
        regular_z0 w (connect_z0 (pt_z0 N3 f) (pt_z0 L f) e ord0)
      & connect_z (z_at w N3 f) (z_at w L f) e ord0
        + diag_mx (connect_z0 (pt_z0 N3 f) (pt_z0 L f) e ord0)
        \in unitmx].
  move=> fn; have /and4P[_ _ p2 u2] := reg_pair fn ce.
  have /and5P[/andP[rzd _] /forallP/(_ (lift c e)) zld _ _ _] := regular fn.
  have [zd3 Ez3] := three_port_z_defined ce fn.
  rewrite zd3 zld Ez // Ez0 pz0 // join_den_load load_z_at Ez3.
  by rewrite /two_port_z /three_port_z p2 u2 !col'_regular.
have shp : [/\ size (s N3) = n, size (z0 N3) = n, size (s L) = n
              & size (z0 L) = n] by rewrite /N3 /= !size_mkseq.
have fr : frequency N3 = frequency L by rewrite fl.
rewrite (connect_load_ok fr shp H).
congr (Ok (Network _ _ _)); apply/eq_in_map => f; rewrite mem_iota add0n => fn.
- by rewrite Ez // Ez0 pz0.
- by rewrite Ez0 pz0.
Qed.

Lemma mapM_nth (X U : Type) (x0 : X) (h : X -> result U) (g : nat -> U)
    (xs : seq X) :
  (forall i, (i < size xs)%N -> h (nth x0 xs i) = Ok (g i)) ->
  mapM h xs = Ok (mkseq g (size xs)).
Proof.
elim: xs g => [|x xs IH] g H //=.
rewrite (H 0%N) //= (IH (fun i => g i.+1)) /=;
  first by move=> i lt_i; apply: (H i.+1).
by rewrite /mkseq /= (iotaDl 1 0) -map_comp.
Qed.

Variable wg : media F Hz.
Variable add_noise : Noise -> nat * nat -> ntwk 2 -> ntwk 2.

Notation tk := (lib w wg add_noise).

Lemma z_loads_ok : z_loads_of tk loads = Ok (z_cols w loads n).
Proof.
have [sz ls] := loads_shape.
rewrite /z_loads_of (@mapM_nth _ _ (no_network F Hz 1) _
  (fun k => mkseq (fun f => z_at w (load k) f ord0 ord0) n)) sz /=;
  last by rewrite !size_mkseq !eqxx.
move=> k k4; rewrite /z_flatten /=.
have [fl sl zl] := ls (Ordinal k4).
rewrite (z_of_ok sl zl) /=;
  first by move=> f /regular/and5P[_ /forallP/(_ (Ordinal k4))].
by rewrite /mkseq -map_comp.
Qed.

(** Two terminations in a row, each on the reference impedance of the
    port it closes. *)
Lemma terminate_twice (m : nat) (Z : 'M[F]_m.+2) (zeta : 'rV[F]_m.+2)
    (c : 'I_m.+2) (e : 'I_m.+1) :
  Z + diag_mx zeta \in unitmx -> Z c c + zeta 0 c != 0 ->
  terminate_z Z c (zeta 0 c) e e + zeta 0 (lift c e) != 0 ->
  let Z2 := terminate_z (terminate_z Z c (zeta 0 c)) e (zeta 0 (lift c e)) in
  (Z2 + diag_mx (col' e (col' c zeta)) \in unitmx) /\
  z2s_mx w Z2 (col' e (col' c zeta))
  = mxsub (lift e) (lift e) (mxsub (lift c) (lift c) (z2s_mx w Z zeta)).
Proof.
move=> uM p1 p2 /=.
have [u3 _] := terminate_u uM p1.
have E : zeta 0 (lift c e) = (col' c zeta) 0 e by rewrite mxE.
rewrite E in p2 *.
have [u2 _] := terminate_u u3 p2.
by split=> //; rewrite (terminate_s w u3 p2) (terminate_s w uM p1).
Qed.

Lemma list_get_mkseq (X : Type) (g : nat -> X) (m i : nat) :
  (i < m)%N -> list_get (mkseq g m) i = Ok (g i).
Proof.
move=> lt_i; rewrite /list_get /mkseq -map_drop drop_iota add0n.
by rewrite -(subnSK lt_i).
Qed.

Lemma raw_z_defined (c : 'I_4) (e : 'I_3) (f : nat) :
  (c <= e)%N -> (f < n)%N ->
  z_defined w (raw_net w dut loads c e n) f /\
  z_at w (raw_net w dut loads c e n) f = two_port_z w dut loads c e f.
Proof.
move=> ce fn; have /and4P[_ _ _ u2] := reg_pair fn ce.
have /and5P[/andP[rzd _] _ _ _ _] := regular fn.
apply: z_defined_z2s (col'_regular e (col'_regular c rzd)) u2.
- by rewrite /pt_s /= nth_mkseq.
- by rewrite /pt_z0 /= nth_mkseq.
Qed.

(** The renormalized measurement is a 2 x 2 block of the device seen from
    the load impedances. *)
Lemma renormalized_ok (c : 'I_4) (e : 'I_3) (a b : nat) :
  (c <= e)%N ->
  a = lift c (lift e ord0) :> nat ->
  b = lift c (lift e (lift ord0 ord0)) :> nat ->
  renormalized tk (z_cols w loads n) (raw_net w dut loads c e n) a b
  = Ok (renorm_net w dut loads c e n).
Proof.
move=> ce Ea Eb; rewrite /renormalized /z_cols.
rewrite !list_get_mkseq ?Ea ?Eb ?ltn_ord //= /c_ !size_mkseq eqxx /=.
set z_new := map _ _.
have sz_new : size z_new = n by rewrite size_map size_zip !size_mkseq minnn.
have nth_new f : (f < n)%N ->
    nth 0 z_new f = col' e (col' c (loads_z w loads f)).
  move=> fn; rewrite (nth_map (0, 0)) ?size_zip ?size_mkseq ?minnn //.
  rewrite nth_zip ?size_mkseq // !nth_mkseq //=.
  apply/rowP => j; rewrite !mxE.
  by case: j => [[|[|j]] Hj] //=; congr (z_at _ _ _ _ _).
have H f : (f < n)%N ->
    [&& z_defined w (raw_net w dut loads c e n) f, regular_z0 w (nth 0 z_new f)
      & z_at w (raw_net w dut loads c e n) f + diag_mx (nth 0 z_new f)
        \in unitmx].
  move=> fn; have [-> ->] := raw_z_defined ce fn; rewrite nth_new //=.
  have /and4P[p1 _ p2 _] := reg_pair fn ce.
  have /and5P[_ _ rzl uM _] := regular fn.
  have [u2 _] := terminate_twice uM p1 p2.
  by rewrite !col'_regular.
have sraw : size (s (raw_net w dut loads c e n)) = n by rewrite /= size_mkseq.
have zraw : size (z0 (raw_net w dut loads c e n)) = n by rewrite /= size_mkseq.
rewrite (renormalize_ok sraw zraw sz_new H).
congr (Ok (Network _ _ _)).
- apply/eq_in_map => f; rewrite mem_iota add0n => fn.
  have [_ ->] := raw_z_defined ce fn; rewrite nth_new //.
  have /and4P[p1 _ p2 _] := reg_pair fn ce.
  have /and5P[_ _ rzl uM _] := regular fn.
  by have [_ ->] := terminate_twice uM p1 p2.
- apply: (@eq_from_nth _ 0); first by rewrite sz_new size_mkseq.
  by move=> f; rewrite sz_new => fn; rewrite nth_new // nth_mkseq.
Qed.

Lemma left_outP (a b : nat) :
  [:: a; b] \in port_combos 4 ->
  [/\ plan 4 a b
      = Ok (val (left_out a b).1, val (lift (left_out a b).1 (left_out a b).2),
            val (left_out a b).2),
      ((left_out a b).1 <= (left_out a b).2)%N,
      a = lift (left_out a b).1 (lift (left_out a b).2 ord0) :> nat
    & b = lift (left_out a b).1 (lift (left_out a b).2 (lift ord0 ord0)) :> nat].
Proof.
by move: a b; apply: combos4_ind; rewrite /left_out /= ?inordK //; split;
   rewrite /= /bump ?inordK.
Qed.

Lemma list_get_nth (X : Type) (x0 : X) (xs : seq X) (i : nat) :
  (i < size xs)%N -> list_get xs i = Ok (nth x0 xs i).
Proof.
by rewrite /list_get; elim: xs i => [|x xs IH] [|i] //= /IH.
Qed.

(** The raw measurement of a pair. *)
Lemma raw_measurement_ok (a b : nat) :
  [:: a; b] \in port_combos 4 ->
  raw_measurement tk dut loads None a b
  = Ok (raw_net w dut loads (left_out a b).1 (left_out a b).2 n).
Proof.
move=> /left_outP[Ep ce _ _]; have [sl _] := loads_shape.
rewrite /raw_measurement /nports Ep /=.
rewrite (list_get_nth (no_network F Hz 1)) ?sl ?ltn_ord //=.
rewrite (connect_dut ce) /=.
set c := (left_out a b).1; set e := (left_out a b).2.
rewrite -[bump c e]/(nat_of_ord (lift c e)).
rewrite (list_get_nth (no_network F Hz 1)) ?sl ?ltn_ord // [bind (Ok _) _]/=.
by rewrite (connect_three_port ce).
Qed.

(** One iteration of the loop on a composite with [n] frequency points. *)
Lemma body_forward (comp : ntwk 4) (g : globals Hz F) (a b : nat) :
  [:: a; b] \in port_combos 4 ->
  size (s comp) = n -> size (z0 comp) = n ->
  exists comp',
    body tk dut loads (z_cols w loads n) None comp g [:: a; b]
    = (Ok comp',
       Globals
         (dict_set (measured g) (a, b)
            (raw_net w dut loads (left_out a b).1 (left_out a b).2 n))
         (dict_set (measured_renorm g) (a, b)
            (renorm_net w dut loads (left_out a b).1 (left_out a b).2 n)))
    /\ (size (s comp') = n /\ size (z0 comp') = n).
Proof.
move=> ab sc zc; have [_ ce Ea Eb] := left_outP ab.
rewrite /body /= (raw_measurement_ok ab) /= (renormalized_ok ce Ea Eb) /=.
have a4 : (a < 4)%N by rewrite Ea.
have b4 : (b < 4)%N by rewrite Eb.
set tp := renorm_net w dut loads (left_out a b).1 (left_out a b).2 n.
have s1 : size (s tp) = size (s comp) by rewrite /= size_mkseq.
have s2 : size (z0 tp) = size (z0 comp) by rewrite /= size_mkseq.
have [comp' Hs] := stuff_total a4 b4 s1 s2.
have ne : a != b.
  by have /allP/(_ _ ab) := port_combos4_uniq; rewrite /= inE andbT.
have [_ _ [sc' zc'] _ _] := stuff_ok ne Hs.
by exists comp'; rewrite Hs sc' zc'.
Qed.

Lemma port_combos4_pair (ab : seq nat) :
  ab \in port_combos 4 -> exists a b, ab = [:: a; b].
Proof.
rewrite port_combos4 !inE.
by case/or4P => [/eqP->|/eqP->|/eqP->|/or3P[]/eqP->]; do 2!eexists.
Qed.

(** The whole loop, on any part of the six pairs. *)
Lemma run_forward (combos : seq (seq nat)) (comp0 : ntwk 4)
    (g0 : globals Hz F) :
  {subset combos <= port_combos 4} -> uniq combos ->
  size (s comp0) = n -> size (z0 comp0) = n ->
  exists comp g,
    run_loop tk dut loads (z_cols w loads n) None combos comp0 g0 = (Ok comp, g)
    /\ forall a b, [:: a; b] \in combos ->
         dict_get (measured g) (a, b)
         = Some (raw_net w dut loads (left_out a b).1 (left_out a b).2 n) /\
         dict_get (measured_renorm g) (a, b)
         = Some (renorm_net w dut loads (left_out a b).1 (left_out a b).2 n).
Proof.
elim: combos comp0 g0 => [|ab rest IH] comp0 g0 sub; first by exists comp0, g0.
case/andP=> nin urest sc zc.
have abin : ab \in port_combos 4 by apply: sub; rewrite mem_head.
have [a [b Eab]] := port_combos4_pair abin; rewrite Eab in abin nin sub *.
have [comp1 [Hb [sc1 zc1]]] := body_forward g0 abin sc zc.
move: Hb; set g1 := Globals _ _ => Hb.
have sub' : {subset rest <= port_combos 4}.
  by move=> p pin; apply: sub; rewrite inE pin orbT.
have [comp [g [Hr Hd]]] := IH comp1 g1 sub' urest sc1 zc1.
exists comp, g; split; first by rewrite /= Hb.
move=> a' b'; rewrite inE => /orP[/eqP[-> ->]|]; last exact: Hd.
have [-> ->] := run_loop_dict_frame Hr nin.
by rewrite /= !dict_get_set !eqxx.
Qed.

End RunFacts.

(** ** The composite of an exact run *)

Section CompositeFacts.

Import GRing.Theory Num.Theory.
Import Skrf Ports.
Local Open Scope ring_scope.

Variable F : numFieldType.
Variable w : F -> F.
Variable Hz : eqType.
Variable Noise : Type.

Notation ntwk := (network Hz F).

Lemma last_writer_some (combos : seq (seq nat)) (m r : nat) (p : seq nat) :
  last_writer combos m r = Some p -> [/\ p \in combos, m \in p & r \in p].
Proof.
rewrite /last_writer => H.
have : p \in [seq ab <- combos | (m \in ab) && (r \in ab)].
  by rewrite -mem_rev; case: (rev _) H => [|q l] //= [->]; rewrite mem_head.
by rewrite mem_filter => /andP[/andP[-> ->] ->].
Qed.

Lemma last_writer4 (x y : 'I_4) :
  exists p, last_writer (port_combos 4) x y = Some p.
Proof.
case: x => [[|[|[|[|x]]]] Hx] //; case: y => [[|[|[|[|y]]]] Hy] //;
  by rewrite port_combos4 /last_writer /=; eexists.
Qed.

Lemma eq_from_cols (P : nat) (a : seq 'M[F]_P) (M : nat -> 'M[F]_P) (n : nat) :
  size a = n ->
  (forall x y, col a x y = mkseq (fun f => M f x y) n) ->
  a = mkseq M n.
Proof.
move=> sa H; apply: (@eq_from_nth _ 0); first by rewrite size_mkseq.
move=> i; rewrite sa => lt_i; rewrite nth_mkseq //.
apply/matrixP => x y; have := congr1 (fun l => nth 0 l i) (H x y).
by rewrite /col (nth_map 0) ?sa // nth_mkseq.
Qed.

Lemma eq_from_zcols (P : nat) (a : seq 'rV[F]_P) (v : nat -> 'rV[F]_P)
    (n : nat) :
  size a = n ->
  (forall k, zcol a k = mkseq (fun f => v f 0 k) n) ->
  a = mkseq v n.
Proof.
move=> sa H; apply: (@eq_from_nth _ 0); first by rewrite size_mkseq.
move=> i; rewrite sa => lt_i; rewrite nth_mkseq //.
apply/rowP => k; have := congr1 (fun l => nth 0 l i) (H k).
by rewrite /zcol (nth_map 0) ?sa // nth_mkseq.
Qed.

Variables (dut : ntwk 4) (loads : seq (ntwk 1)) (n : nat).

Notation load k := (nth (no_network F Hz 1) loads k).

Lemma lift_pos2 (a b : nat) (x : 'I_4) :
  [:: a; b] \in port_combos 4 -> (x : nat) \in [:: a; b] ->
  lift (left_out a b).1 (lift (left_out a b).2 (pos2 a x)) = x.
Proof.
move=> /left_outP[_ _ Ea Eb]; rewrite !inE /pos2 => xin; apply: val_inj.
case: ifP xin => [/eqP xa _|_ /= /eqP xb].
  by rewrite [RHS]xa [RHS]Ea.
by rewrite [RHS]xb [RHS]Eb.
Qed.

Hypothesis dut_shape : size (s dut) = n /\ size (z0 dut) = n.
Hypothesis loads_shape : size loads = 4%N /\
  forall k : 'I_4, [/\ frequency (load k) = frequency dut,
                       size (s (load k)) = n & size (z0 (load k)) = n].
Hypothesis regular : forall f, (f < n)%N -> regular_at w dut loads f.

Variable wg : media F Hz.
Variable add_noise : Noise -> nat * nat -> ntwk 2 -> ntwk 2.

Notation tk := (lib w wg add_noise).

(** After the loop the composite is the device seen from the impedances of
    the loads, and the two dictionaries hold the six measurements. *)
Lemma run_composite (comp0 : ntwk 4) (g0 : globals Hz F) :
  size (s comp0) = n -> size (z0 comp0) = n ->
  exists g,
    [/\ run_loop tk dut loads (z_cols w loads n) None (port_combos 4) comp0 g0
        = (Ok (Network (frequency comp0) (mkseq (s_full w dut loads) n)
                 (mkseq (loads_z w loads) n)), g)
      & forall a b, [:: a; b] \in port_combos 4 ->
         dict_get (measured g) (a, b)
         = Some (raw_net w dut loads (left_out a b).1 (left_out a b).2 n) /\
         dict_get (measured_renorm g) (a, b)
         = Some (renorm_net w dut loads (left_out a b).1 (left_out a b).2 n)].
Proof.
move=> sc zc.
have u4 : uniq (port_combos 4) by rewrite port_combos4.
have [comp [g [Hr Hd]]] :=
  run_forward dut_shape loads_shape regular wg add_noise g0 (fun _ h => h) u4 sc zc.
exists g; split=> //; rewrite Hr; congr (Ok _, _).
have [[Fq Sq Zq] _ cS _ zS] := run_loop_cells port_combos4_uniq Hr.
case: comp Fq Sq Zq cS zS {Hr} => fq sq zq /= -> Sq Zq cS zS.
congr Network.
- apply: eq_from_cols => [|x y]; first by rewrite Sq.
  have [p Ep] := last_writer4 x y.
  have [pin xin yin] := last_writer_some Ep.
  have [a [b [r [Eab Er]]]] := cS x y p Ep.
  rewrite Eab in pin xin yin; have [_] := Hd a b pin; rewrite Er => -[->].
  have -> : col (s (renorm_net w dut loads (left_out a b).1 (left_out a b).2 n))
              (pos2 a x) (pos2 a y)
            = mkseq (fun f => s_full w dut loads f x y) n.
    rewrite /col /= /mkseq -map_comp; apply: eq_map => f /=.
    by rewrite !mxE !lift_pos2.
  by rewrite sc -{1}(size_mkseq (fun f => s_full w dut loads f x y) n)
             assign_same => -[].
- apply: eq_from_zcols => [|k]; first by rewrite Zq.
  have [p Ep] := last_writer4 k k.
  have [pin kin _] := last_writer_some Ep.
  have [a [b [r [Eab Er]]]] := zS k p Ep.
  rewrite Eab in pin kin; have [_] := Hd a b pin; rewrite Er => -[->].
  have -> : zcol (z0 (renorm_net w dut loads (left_out a b).1 (left_out a b).2 n))
              (pos2 a k)
            = mkseq (fun f => loads_z w loads f 0 k) n.
    rewrite /zcol /= /mkseq -map_comp; apply: eq_map => f /=.
    by rewrite !mxE !lift_pos2.
  by rewrite zc -{1}(size_mkseq (fun f => loads_z w loads f 0 k) n)
             assign_same => -[].
Qed.

Variable fifty : F.

(** The composer up to its last line: the loop has run through, and the
    dictionaries hold the six measurements. *)
Lemma composer_loop :
  size (m_frequency wg) = n ->
  exists g,
    [/\ composer tk fifty dut loads
        = (finish tk fifty
             (Network (m_frequency wg) (mkseq (s_full w dut loads) n)
                (mkseq (loads_z w loads) n)), g)
      & forall a b, [:: a; b] \in port_combos 4 ->
         dict_get (measured g) (a, b)
         = Some (raw_net w dut loads (left_out a b).1 (left_out a b).2 n) /\
         dict_get (measured_renorm g) (a, b)
         = Some (renorm_net w dut loads (left_out a b).1 (left_out a b).2 n)].
Proof.
move=> sf.
have s0 : size (s (matched wg 4)) = n by rewrite /= size_nseq.
have zs0 : size (z0 (matched wg 4)) = n by rewrite /= size_nseq.
have [g [Hr Hd]] := run_composite (Globals [::] [::]) s0 zs0.
exists g; split=> //.
rewrite /composer (z_loads_ok loads_shape regular wg add_noise).
by rewrite -/(port_combos 4) [wg_match _ _]/= Hr.
Qed.

(** The last line: the final renormalisation brings the composite to the
    device seen from the system impedance. *)
Lemma finish_ok :
  (forall f, (f < n)%N ->
     regular_z0 w (const_mx fifty : 'rV[F]_4)
     && (z_at w dut f + diag_mx (const_mx fifty) \in unitmx)) ->
  finish tk fifty
    (Network (m_frequency wg) (mkseq (s_full w dut loads) n)
       (mkseq (loads_z w loads) n))
  = Ok (Network (m_frequency wg)
          (mkseq (fun f => z2s_mx w (z_at w dut f) (const_mx fifty)) n)
          (nseq n (const_mx fifty))).
Proof.
move=> H50; rewrite /finish /= /broadcast_z0 /npoints /= size_mkseq.
have reg f : (f < n)%N ->
    z_defined w (Network (m_frequency wg) (mkseq (s_full w dut loads) n)
                   (mkseq (loads_z w loads) n)) f
    /\ z_at w (Network (m_frequency wg) (mkseq (s_full w dut loads) n)
                 (mkseq (loads_z w loads) n)) f = z_at w dut f.
  move=> lt_f; case/and5P: (regular lt_f) => _ _ rz uM _.
  by apply: z_defined_z2s; rewrite /pt_s /pt_z0 /= ?nth_mkseq.
rewrite (@renormalize_ok _ _ _ _ _ _ n) ?size_mkseq ?size_nseq //=.
  move=> f lt_f; have [-> ->] := reg f lt_f.
  by rewrite nth_nseq lt_f /=; apply: H50.
congr Ok; congr Network; apply/eq_in_map => f.
rewrite mem_iota add0n /= => lt_f.
by have [_ ->] := reg f lt_f; rewrite nth_nseq lt_f.
Qed.

End CompositeFacts.

(** ** Matched devices and matched loads *)

Section MatchedFacts.

Import GRing.Theory Num.Theory.
Import Skrf Ports.
Local Open Scope ring_scope.

Variable F : numFieldType.
Variable w : F -> F.
Variable Hz : eqType.

Notation ntwk := (network Hz F).

Lemma unnormalize0 (n : nat) (z : 'rV[F]_n) : unnormalize w z 0 = 0.
Proof. by apply/matrixP => i j; rewrite !mxE mulr0 mul0r. Qed.

Lemma s2z_mx0 (n : nat) (z : 'rV[F]_n) : s2z_mx w 0 z = diag_mx z.
Proof.
by rewrite /s2z_mx unnormalize0 /z_of_u subr0 addr0 invmx1 !mul1mx.
Qed.

Lemma z2s_mx_diag (n : nat) (z : 'rV[F]_n) : z2s_mx w (diag_mx z) z = 0.
Proof.
rewrite /z2s_mx /u_of_z subrr mul0mx.
by apply/matrixP => i j; rewrite !mxE !mul0r.
Qed.

Lemma terminate_z_diag (n : nat) (v : 'rV[F]_n.+1) (c : 'I_n.+1) (zl : F) :
  terminate_z (diag_mx v) c zl = diag_mx (col' c v).
Proof.
apply/matrixP => i j; rewrite !mxE (inj_eq lift_inj) [lift c i == c]eq_sym.
by rewrite (negbTE (neq_lift c i)) mulr0n !mul0r subr0.
Qed.

Lemma diag_mxD (n : nat) (u v : 'rV[F]_n) :
  diag_mx u + diag_mx v = diag_mx (u + v).
Proof. by apply/matrixP => i j; rewrite !mxE mulrnDl. Qed.

Lemma unitmx_diag_pos (n : nat) (u v : 'rV[F]_n) :
  (forall k, 0 < u 0 k) -> (forall k, 0 < v 0 k) ->
  diag_mx u + diag_mx v \in unitmx.
Proof.
move=> pu pv; rewrite diag_mxD; apply: unitmx_diag => k.
by rewrite mxE lt0r_neq0 // addr_gt0.
Qed.

Hypothesis w_pos : forall x, 0 < x -> w x != 0.

Lemma regular_z0_pos (n : nat) (z : 'rV[F]_n) :
  (forall k, 0 < z 0 k) -> regular_z0 w z.
Proof. by move=> pz; apply/regular_z0P => k; rewrite lt0r_neq0 ?w_pos. Qed.

Lemma z_defined_matched (P : nat) (N : ntwk P) (f : nat) :
  pt_s N f = 0 -> (forall k, 0 < pt_z0 N f 0 k) ->
  z_defined w N f /\ z_at w N f = diag_mx (pt_z0 N f).
Proof.
move=> Es pz; rewrite /z_defined /z_at Es unnormalize0 subr0 unitmx1 s2z_mx0.
by rewrite regular_z0_pos.
Qed.

Variables (dut : ntwk 4) (loads : seq (ntwk 1)) (f : nat).

Notation load k := (nth (no_network F Hz 1) loads k).

Hypothesis dut_matched : pt_s dut f = 0 /\ forall k, 0 < pt_z0 dut f 0 k.
Hypothesis loads_matched :
  forall k : 'I_4, pt_s (load k) f = 0 /\ 0 < pt_z0 (load k) f 0 0.

Lemma loads_z_matched (k : 'I_4) :
  loads_z w loads f 0 k = pt_z0 (load k) f 0 0.
Proof.
have [Es pz] := loads_matched k.
have pz' j : 0 < pt_z0 (load k) f 0 j by rewrite [j]ord1.
have [_ Ez] := z_defined_matched Es pz'.
by rewrite /loads_z mxE Ez !mxE eqxx mulr1n.
Qed.

(** A matched device closed on matched loads of positive impedances: no
    step of the run is singular. *)
Lemma regular_matched : regular_at w dut loads f.
Proof.
have [Es pz] := dut_matched.
have [zd Ez] := z_defined_matched Es pz.
have pl k : 0 < loads_z w loads f 0 k.
  by rewrite loads_z_matched; case: (loads_matched k).
apply/and5P; split=> //.
- apply/forallP => k; have [Ek pk] := loads_matched k.
  have pk' j : 0 < pt_z0 (load k) f 0 j by rewrite [j]ord1.
  by have [] := z_defined_matched Ek pk'.
- exact: regular_z0_pos.
- by rewrite Ez; apply: unitmx_diag_pos.
apply/forallP => c; apply/forallP => e; apply/implyP => _.
rewrite /pair_regular Ez !terminate_z_diag.
apply/and4P; split.
- by rewrite mxE eqxx mulr1n lt0r_neq0 // addr_gt0.
- by apply: unitmx_diag_pos => k; rewrite !mxE.
- by rewrite mxE eqxx mulr1n mxE lt0r_neq0 // addr_gt0.
- by apply: unitmx_diag_pos => k; rewrite !mxE.
Qed.

(** The raw measurements of a matched device are all zero. *)
Lemma raw_matched (c : 'I_4) (e : 'I_3) :
  z2s_mx w (two_port_z w dut loads c e f) (col' e (col' c (pt_z0 dut f))) = 0.
Proof.
have [Es pz] := dut_matched.
have [_ Ez] := z_defined_matched Es pz.
by rewrite /two_port_z /three_port_z Ez !terminate_z_diag z2s_mx_diag.
Qed.

End MatchedFacts.

(** ** Tippet's technique on the library *)

Section TippetClaims.

Import GRing.Theory Num.Theory.
Import Skrf Ports.
Local Open Scope ring_scope.

Variable F : numFieldType.
Variable w : F -> F.
Variable Hz : eqType.
Variable Noise : Type.

Notation ntwk := (network Hz F).

Variable wg : media F Hz.
Variable add_noise : Noise -> nat * nat -> ntwk 2 -> ntwk 2.
Variable fifty : F.

Notation tk := (lib w wg add_noise).
Notation load loads k := (nth (no_network F Hz 1) loads k).


(** C2 (amended): in an exact run without noise, if no step is singular,
    the renormalized 2-port measurements of every pair containing port [k]
    give the same reflection coefficient [S_kk]: the one of the device
    referenced to the impedances of the loads. (The raw measurements are
    not compared: they may agree as well.) *)
Theorem renormalized_agree (dut : ntwk 4) (loads : seq (ntwk 1)) (n : nat) :
  frequency dut = m_frequency wg -> size (frequency dut) = n ->
  size (s dut) = n -> size (z0 dut) = n ->
  size loads = 4%N ->
  (forall k : 'I_4, [/\ frequency (load loads k) = frequency dut,
                        size (s (load loads k)) = n
                      & size (z0 (load loads k)) = n]) ->
  (forall f, (f < n)%N -> regular_at w dut loads f) ->
  exists res g,
    composer tk fifty dut loads = (res, g) /\
    forall (k : 'I_4) (a b : nat),
      [:: a; b] \in port_combos 4 -> (k : nat) \in [:: a; b] ->
      exists2 r, dict_get (measured_renorm g) (a, b) = Some r
               & col (s r) (pos2 a k) (pos2 a k)
                 = mkseq (fun f => s_full w dut loads f k k) n.
Proof.
move=> Ef sf sd zd sl shl reg; rewrite Ef in sf.
have [g [-> Hd]] := composer_loop (conj sd zd) (conj sl shl) reg add_noise fifty sf.
eexists; exists g; split=> [//|k a b ab kin].
have [_ ->] := Hd a b ab; eexists; first by [].
rewrite /col /= /mkseq -map_comp; apply: eq_map => f /=.
by rewrite !mxE !lift_pos2.
Qed.

End TippetClaims.

(** ** The instance *)

Section DemoFacts.

Import GRing.Theory Num.Theory.
Import Skrf Ports.
Local Open Scope ring_scope.

Notation load k := (nth (no_network rat nat 1) Demo.loads k).

Lemma demo_w_pos (x : rat) : 0 < x -> Demo.w x != 0.
Proof. by rewrite /Demo.w oner_neq0. Qed.

Lemma demo_loads_shape (k : 'I_4) :
  [/\ frequency (load k) = frequency Demo.dut, size (s (load k)) = 1%N
    & size (z0 (load k)) = 1%N].
Proof. by case: k => [[|[|[|[|k]]]] Hk]. Qed.

Lemma demo_dut_matched :
  pt_s Demo.dut 0 = 0 /\ forall k, 0 < pt_z0 Demo.dut 0 0 k.
Proof. by split=> // k; rewrite /pt_z0 /= mxE. Qed.

Lemma demo_loads_matched (k : 'I_4) :
  pt_s (load k) 0 = 0 /\ 0 < pt_z0 (load k) 0 0 0.
Proof.
by case: k => [[|[|[|[|k]]]] Hk] //; split; rewrite /pt_s /pt_z0 /= ?mxE.
Qed.

Lemma demo_regular (f : nat) :
  (f < 1)%N -> regular_at Demo.w Demo.dut Demo.loads f.
Proof.
case: f => // _.
exact: (regular_matched demo_w_pos demo_dut_matched demo_loads_matched).
Qed.

Lemma demo_impedances :
  [seq z_at Demo.w L 0 0 0 | L <- Demo.loads] = Demo.impedances.
Proof.
rewrite /Demo.loads /Demo.impedances /= /z_at /pt_s /pt_z0 /= !s2z_mx0.
by rewrite !mxE.
Qed.


(** Witness of C2. *)
Lemma renormalized_agree_witness :
  exists res g,
    composer Demo.tk 50 Demo.dut Demo.loads = (res, g) /\
    forall (k : 'I_4) (a b : nat),
      [:: a; b] \in port_combos 4 -> (k : nat) \in [:: a; b] ->
      exists2 r, dict_get (measured_renorm g) (a, b) = Some r
               & col (s r) (pos2 a k) (pos2 a k)
                 = mkseq (fun f => s_full Demo.w Demo.dut Demo.loads f k k) 1.
Proof.
apply: (@renormalized_agree _ Demo.w _ _ Demo.wg Demo.add_noise 50 Demo.dut
          Demo.loads 1) => //.
- exact: demo_loads_shape.
- exact: demo_regular.
Defined.

(** Counterexample to C2 as stated: on the matched 4-port the raw
    measurements of every [S_kk] are all zero, hence agree, although the
    four terminations differ. *)
Lemma raw_measurements_agree :
  [/\ [seq z_at Demo.w L 0 0 0 | L <- Demo.loads] = Demo.impedances,
      uniq Demo.impedances
    & exists res g,
        composer Demo.tk 50 Demo.dut Demo.loads = (res, g) /\
        forall (k : 'I_4) (a b : nat),
          [:: a; b] \in port_combos 4 -> (k : nat) \in [:: a; b] ->
          exists2 r, dict_get (measured g) (a, b) = Some r
                   & col (s r) (pos2 a k) (pos2 a k) = [:: 0]].
Proof.
split; first exact: demo_impedances.
  by rewrite /Demo.impedances /uniq !inE !eqr_nat.
have shd : size (s Demo.dut) = 1%N /\ size (z0 Demo.dut) = 1%N by [].
have shl : size Demo.loads = 4%N /\
    forall k : 'I_4, [/\ frequency (load k) = frequency Demo.dut,
                         size (s (load k)) = 1%N & size (z0 (load k)) = 1%N].
  by split=> //; apply: demo_loads_shape.
have [g [-> Hd]] :=
  composer_loop shd shl demo_regular Demo.add_noise 50 (erefl _ : size (m_frequency Demo.wg) = 1%N).
eexists; exists g; split=> [//|k a b ab _].
have [-> _] := Hd a b ab; eexists; first by [].
rewrite /col /= (raw_matched demo_w_pos Demo.loads demo_dut_matched).
by rewrite mxE.
Qed.

End DemoFacts.

(** ** Round trips of the conversions and of the renormalizer *)

Section RoundTrips.

Import GRing.Theory Num.Theory.
Import Skrf.
Local Open Scope ring_scope.

Variable F : numFieldType.
Variable w : F -> F.
Variable Hz : eqType.

Notation ntwk := (network Hz F).

Lemma s2z_arr_ok (P : nat) (ss : seq 'M[F]_P) (zs : seq 'rV[F]_P) (n : nat) :
  size ss = n -> size zs = n ->
  (forall f, (f < n)%N -> regular_z0 w (nth 0 zs f)) ->
  s2z_arr w ss zs
  = Ok (mkseq (fun f => s2z_mx w (nth 0 ss f) (nth 0 zs f)) n).
Proof.
move=> sn zn H; rewrite /s2z_arr sn zn eqxx.
by apply: mapM_iota => f /H; rewrite /s2z_pt => ->.
Qed.

(** C4: a scattering array [s] with reference impedances [z0], converted
    to impedance parameters and back at the same [z0], is [s] again,
    exactly. The hypotheses are the precondition of the conversion (section
    4.1): at each frequency point [z0] is regular and the network has an
    impedance form ([1 - S], normalised, is invertible). Converting the
    result once more gives the same impedance array. *)
Theorem s2z_z2s_round_trip (P : nat) (ss : seq 'M[F]_P) (zs : seq 'rV[F]_P)
    (n : nat) :
  size ss = n -> size zs = n ->
  (forall f, (f < n)%N ->
     regular_z0 w (nth 0 zs f)
     && (1%:M - unnormalize w (nth 0 zs f) (nth 0 ss f) \in unitmx)) ->
  exists Zs,
    [/\ s2z_arr w ss zs = Ok Zs, z2s_arr w Zs zs = Ok ss
      & forall ss', z2s_arr w Zs zs = Ok ss' -> s2z_arr w ss' zs = Ok Zs].
Proof.
move=> sn zn H.
have Hz' f : (f < n)%N -> regular_z0 w (nth 0 zs f) by move/H/andP=> [].
have Es := s2z_arr_ok sn zn Hz'.
have Eb : z2s_arr w (mkseq (fun f => s2z_mx w (nth 0 ss f) (nth 0 zs f)) n) zs
          = Ok ss.
  rewrite (@z2s_arr_ok _ _ _ _ _ n) ?size_mkseq //.
    move=> f lt_f; rewrite nth_mkseq //; case/andP: (H f lt_f) => rz uA.
    by rewrite rz; have [-> _] := z2s_s2z_mx rz uA.
  congr Ok; rewrite -[RHS](mkseq_nth 0) sn; apply/eq_in_map => f.
  rewrite mem_iota add0n /= => lt_f; rewrite nth_mkseq //.
  by case/andP: (H f lt_f) => rz uA; have [_ ->] := z2s_s2z_mx rz uA.
exists (mkseq (fun f => s2z_mx w (nth 0 ss f) (nth 0 zs f)) n); split=> //.
by move=> ss'; rewrite Eb => -[<-].
Qed.

(** C3: for a network that has an impedance form at every frequency point
    (the precondition of section 4.1, [z_defined]), renormalizing to its own
    [z0] returns the network unchanged, and renormalizing to other
    impedances [X] at which it can be referenced, then back to the original
    [z0], returns the original network, exactly. *)
Theorem renormalize_round_trip (P : nat) (N : ntwk P) (X : seq 'rV[F]_P)
    (n : nat) :
  size (s N) = n -> size (z0 N) = n ->
  (forall f, (f < n)%N -> z_defined w N f) ->
  renormalize w N (z0 N) = Ok N /\
  (size X = n ->
   (forall f, (f < n)%N ->
      regular_z0 w (nth 0 X f)
      && (z_at w N f + diag_mx (nth 0 X f) \in unitmx)) ->
   exists2 N', renormalize w N X = Ok N' & renormalize w N' (z0 N) = Ok N).
Proof.
move=> sn zn H.
have back (M : ntwk P) :
    size (s M) = n -> size (z0 M) = n -> frequency M = frequency N ->
    (forall f, (f < n)%N -> z_defined w M f /\ z_at w M f = z_at w N f) ->
    renormalize w M (z0 N) = Ok N.
  move=> sM zM fM HM; rewrite (@renormalize_ok _ _ _ _ _ _ n) //.
    move=> f lt_f; have [-> ->] := HM f lt_f; case/andP: (H f lt_f) => rz uA.
    by rewrite -/(pt_z0 N f) rz; have [-> _] := z2s_s2z_mx rz uA.
  case: N sn zn H HM fM => fN sN zN /= sn zn H HM ->.
  congr Ok; congr Network.
  rewrite -[RHS](mkseq_nth 0) sn; apply/eq_in_map => f.
  rewrite mem_iota add0n /= => lt_f; have [_ ->] := HM f lt_f.
  by case/andP: (H f lt_f) => rz uA; have [_ ->] := z2s_s2z_mx rz uA.
split; first by apply: back => // f /H.
move=> sX HX; rewrite (@renormalize_ok _ _ _ _ _ _ n) //.
  by move=> f lt_f; rewrite H //=; apply: HX.
eexists; first by [].
apply: back; rewrite /= ?size_mkseq // => f lt_f.
case/andP: (HX f lt_f) => rX uX.
by apply: z_defined_z2s; rewrite /pt_s /pt_z0 /= ?nth_mkseq.
Qed.

End RoundTrips.

(** ** A reflective one-port *)

Section OnePortFacts.

Import GRing.Theory Num.Theory.
Import Skrf.
Local Open Scope ring_scope.

(** The impedance of a one-port of reflection coefficient [G] at the
    reference impedance [z], for plain voltage waves. *)
Lemma one_port_z (G z : rat) :
  G != 1 -> z != 0 ->
  (1%:M - unnormalize Demo.w (const_mx z) (const_mx G : 'M_1) \in unitmx)
  /\ s2z_mx Demo.w (const_mx G : 'M_1) (const_mx z) = (z * (1 + G) / (1 - G))%:M.
Proof.
move=> G1 z0.
have E : unnormalize Demo.w (const_mx z) (const_mx G : 'M_1) = G%:M.
  by apply/matrixP => i j; rewrite !mxE !ord1 /Demo.w mul1r divr1 eqxx mulr1n.
have D : diag_mx (const_mx z : 'rV_1) = z%:M.
  by apply/matrixP => i j; rewrite !mxE !ord1.
have nz : 1 - G != 0 by rewrite subr_eq0 eq_sym.
have U : (1 - G)%:M \in (unitmx : pred 'M[rat]_1).
  by rewrite unitmxE det_scalar1 unitfE.
have B : 1%:M - G%:M = (1 - G)%:M :> 'M[rat]_1 by rewrite raddfB.
have A : 1%:M + G%:M = (1 + G)%:M :> 'M[rat]_1 by rewrite raddfD.
rewrite /s2z_mx /z_of_u E D A B; split=> //.
have -> : invmx ((1 - G)%:M : 'M[rat]_1) = ((1 - G)^-1)%:M.
  by apply: invmx_eq; rewrite -scalar_mxM divff.
by rewrite -!scalar_mxM; congr (_%:M); field.
Qed.

Lemma half_lt1 : (1 / 2 : rat) < 1.
Proof. by rewrite ltr_pdivrMr ?ltr0n // mul1r ltr1n. Qed.

Lemma half_neq1 : (1 / 2 : rat) != 1.
Proof. by rewrite Order.POrderTheory.lt_eqF // half_lt1. Qed.

Lemma fifty_neq0 : (50 : rat) != 0.
Proof. by rewrite pnatr_eq0. Qed.

Lemma half_s : nth 0 (s Demo.half) 0 = const_mx (1 / 2).
Proof. exact: erefl. Qed.

Lemma half_z0 : nth 0 (z0 Demo.half) 0 = const_mx 50.
Proof. exact: erefl. Qed.

Lemma fifty_regular (n : nat) (x : rat) :
  0 < x -> regular_z0 Demo.w (const_mx x : 'rV_n).
Proof.
by move=> x0; apply: (regular_z0_pos demo_w_pos) => k; rewrite mxE.
Qed.

Lemma half_defined (f : nat) : (f < 1)%N -> z_defined Demo.w Demo.half f.
Proof.
case: f => [_|//]; rewrite /z_defined /pt_s /pt_z0 half_s half_z0.
have [-> _] := one_port_z half_neq1 fifty_neq0.
by rewrite andbT; apply: fifty_regular; rewrite ltr0n.
Qed.

Lemma half_at_75 (f : nat) :
  (f < 1)%N ->
  regular_z0 Demo.w (nth 0 [:: const_mx 75 : 'rV[rat]_1] f)
  && (z_at Demo.w Demo.half f + diag_mx (nth 0 [:: const_mx 75] f) \in unitmx).
Proof.
case: f => [_|//]; rewrite /z_at /pt_s /pt_z0 half_s half_z0.
have [_ ->] := one_port_z half_neq1 fifty_neq0.
rewrite [nth _ _ _]/= fifty_regular ?ltr0n // [_ && _]/=.
have -> : diag_mx (const_mx 75 : 'rV[rat]_1) = 75%:M.
  by apply/matrixP => i j; rewrite !mxE !ord1.
rewrite -raddfD [X in X \in _]/= unitmxE det_scalar1 unitfE.
apply: lt0r_neq0; apply: addr_gt0; last by rewrite ltr0n.
apply: divr_gt0; last by rewrite subr_gt0 half_lt1.
apply: mulr_gt0; first by rewrite ltr0n.
by apply: addr_gt0; rewrite ?ltr01 // divr_gt0 ?ltr01 ?ltr0n.
Qed.
(** Witness of C4: the reflective load. *)
Lemma s2z_z2s_round_trip_witness :
  exists Zs,
    s2z_arr Demo.w (s Demo.half) (z0 Demo.half) = Ok Zs
    /\ z2s_arr Demo.w Zs (z0 Demo.half) = Ok (s Demo.half).
Proof.
have [Zs [E1 E2 _]] :=
  @s2z_z2s_round_trip _ Demo.w 1 (s Demo.half) (z0 Demo.half) 1
    (erefl _) (erefl _) half_defined.
exists Zs; split; [exact: E1 | exact: E2].
Defined.

(** Witness of C3: the reflective load, renormalized to 75 and back. *)
Lemma renormalize_round_trip_witness :
  renormalize Demo.w Demo.half (z0 Demo.half) = Ok Demo.half /\
  exists2 N', renormalize Demo.w Demo.half [:: const_mx 75] = Ok N'
            & renormalize Demo.w N' (z0 Demo.half) = Ok Demo.half.
Proof.
have [H1 H2] :=
  @renormalize_round_trip _ Demo.w _ 1 Demo.half [:: const_mx 75] 1
    (erefl _) (erefl _) half_defined.
split; [exact: H1 | apply: H2; [exact: erefl | exact: half_at_75]].
Defined.

End OnePortFacts.

(** ** The connector *)

Section ConnectClaims.

Import GRing.Theory Num.Theory.
Import Skrf Ports.
Local Open Scope ring_scope.

Variable F : numFieldType.
Variable w : F -> F.
Variable Hz : eqType.
Variable Noise : Type.

Notation ntwk := (network Hz F).

Lemma survivor_inj (P Q : nat) (k : 'I_P) (l : 'I_Q) : injective (survivor k l).
Proof.
move=> m m'; rewrite /survivor -[m in _ -> m = _]splitK -[m' in _ -> _ = m']splitK.
case: (split m) (split m') => [i|j] [i'|j'] /=.
- by move/lshift_inj/lift_inj=> ->.
- by move/eqP; rewrite eq_lrshift.
- by move/eqP; rewrite eq_rlshift.
- by move/rshift_inj/lift_inj=> ->.
Qed.

Lemma survivor_not_joined (P Q : nat) (k : 'I_P) (l : 'I_Q)
    (m : 'I_(P.-1 + Q.-1)) :
  (survivor k l m != lshift Q k) && (survivor k l m != rshift P l).
Proof.
rewrite /survivor; case: (split m) => [i|j].
  by rewrite (inj_eq (@lshift_inj _ _)) lift_eqF eq_lrshift.
by rewrite eq_rlshift (inj_eq (@rshift_inj _ _)) lift_eqF.
Qed.

Lemma z_of_size (P : nat) (A : ntwk P) (ZA : seq 'M[F]_P) :
  z_of w A = Ok ZA -> size ZA = size (s A).
Proof.
rewrite /z_of /s2z_arr; case: eqP => // _ /mapM_size.
by rewrite size_iota.
Qed.

Lemma pred_add (P Q k l : nat) :
  (k < P)%N -> (l < Q)%N -> (P.-1 + Q.-1 = P + Q - 2)%N.
Proof.
case: P => // P _; case: Q => // Q _.
by rewrite /= addSn addnS subn2.
Qed.

(** C6: when the connector joins port [k] of a P-port [A] to port [l] of a
    Q-port [B], the two indices are in range, and the result has
    [P + Q - 2] ports, the frequency grid of [A] and one scattering matrix
    and one impedance row per frequency point. Its ports are ports of [A]
    and [B], all different, none of them one of the two joined. *)
Theorem connect_nports (P Q : nat) (A : ntwk P) (B : ntwk Q) (k l : nat)
    (C : ntwk (P.-1 + Q.-1)) :
  connect w A k B l = Ok C ->
  [/\ (k < P)%N /\ (l < Q)%N,
      nports C = (P + Q - 2)%N,
      frequency C = frequency A /\ frequency A = frequency B,
      size (s C) = size (s A) /\ size (z0 C) = size (s A)
    & forall (ok : 'I_P) (ol : 'I_Q),
        injective (survivor ok ol) /\
        forall m, (survivor ok ol m != lshift Q ok)
                  && (survivor ok ol m != rshift P ol)].
Proof.
rewrite /connect; case: eqP => //= fAB.
case: insubP => // ok ltk _; case: insubP => // ol ltl _.
ok_bind ZA HA; ok_bind ZB HB; case: eqP => //= _; ok_bind pts Hp => -[<-] /=.
have sp : size pts = size (s A).
  by rewrite (mapM_size Hp) size_iota (z_of_size HA).
split=> //.
- exact: pred_add ltk ltl.
- by rewrite /unzip1 /unzip2 !size_map.
- by move=> ok' ol'; split; [apply: survivor_inj | apply: survivor_not_joined].
Qed.

Variable wg : media F Hz.
Variable add_noise : Noise -> nat * nat -> ntwk 2 -> ntwk 2.
Variable fifty : F.

Notation tk := (lib w wg add_noise).





End ConnectClaims.

(** ** The claims on the instance *)

Section Instances.

Import GRing.Theory Num.Theory.
Import Skrf Ports.
Local Open Scope ring_scope.

Notation load k := (nth (no_network rat nat 1) Demo.loads k).

Lemma demo_dut_shape : size (s Demo.dut) = 1%N /\ size (z0 Demo.dut) = 1%N.
Proof. by []. Qed.

Lemma demo_shape :
  size Demo.loads = 4%N /\
  forall k : 'I_4, [/\ frequency (load k) = frequency Demo.dut,
                       size (s (load k)) = 1%N & size (z0 (load k)) = 1%N].
Proof. by split=> //; apply: demo_loads_shape. Qed.

(** Witness of C6: closing port 0 of the 4-port on its load gives a
    3-port. *)
Lemma connect_nports_witness :
  exists C : network nat rat 3,
    [/\ connect Demo.w Demo.dut 0%N (load 0%N) 0%N = Ok C,
        nports C = (4 + 1 - 2)%N & size (s C) = size (s Demo.dut)].
Proof.
have H := connect_dut demo_dut_shape demo_shape demo_regular
            (c := ord0) (e := ord0) (leqnn 0).
have [_ E _ [E' _] _] := connect_nports H.
exists (three_port_net Demo.w Demo.dut Demo.loads ord0 1).
by split; [exact: H | exact: E | exact: E'].
Defined.


(** Witness of C7: the first iteration of the loop. *)
Lemma pair_writes_witness :
  exists comp' g',
    body Demo.tk Demo.dut Demo.loads (z_cols Demo.w Demo.loads 1) None
      (matched Demo.wg 4) (Globals [::] [::]) [:: 0; 1]%N = (Ok comp', g') /\
    forall x y : 'I_4, (val x, val y) \notin written_cells 0%N 1%N ->
      col (s comp') x y = col (s (matched Demo.wg 4)) x y.
Proof.
have [comp' [Hb _]] :=
  body_forward demo_dut_shape demo_shape demo_regular Demo.wg Demo.add_noise
    (comp := matched Demo.wg 4) (Globals [::] [::]) (a := 0%N) (b := 1%N)
    isT (erefl _) (erefl _).
exists comp'; eexists; split; first exact: Hb.
by have [] := pair_writes (isT : 0%N != 1%N) Hb.
Defined.

(** Witness of C9: the whole loop, and the cell [(0, 0)]. *)
Lemma last_write_wins_witness :
  exists comp g a b r,
    [/\ run_loop Demo.tk Demo.dut Demo.loads (z_cols Demo.w Demo.loads 1) None
          (port_combos 4) (matched Demo.wg 4) (Globals [::] [::])
        = (Ok comp, g),
        last_writer (port_combos 4) 0%N 0%N = Some [:: a; b],
        dict_get (measured_renorm g) (a, b) = Some r
      & assign 1 (col (s r) (pos2 a 0%N) (pos2 a 0%N)) = Ok (col (s comp) ord0 ord0)].
Proof.
have [g [Hr _]] :=
  run_composite demo_dut_shape demo_shape demo_regular Demo.wg Demo.add_noise
    (comp0 := matched Demo.wg 4) (Globals [::] [::]) (erefl _) (erefl _).
have [a [b [r [E1 E2 E3 _]]]] := last_write_wins ord0 Hr.
by eexists; exists g, a, b, r; split; first exact: Hr.
Defined.

End Instances.


(** ** [tippits] on the instance *)

Section TippitsInstance.

Import GRing.Theory Num.Theory.
Import Skrf Ports.
Local Open Scope ring_scope.

Notation loads4 := (nseq 4 (load Demo.wg 0)).
Notation load4 k := (nth (no_network rat nat 1) loads4 k).
Notation g00 := (Globals [::] [::] : globals nat rat).

Lemma loads4_shape :
  size loads4 = 4%N /\
  forall k : 'I_4, [/\ frequency (load4 k) = frequency Demo.dut,
                       size (s (load4 k)) = 1%N & size (z0 (load4 k)) = 1%N].
Proof. by split=> // k; case: k => [[|[|[|[|k]]]] Hk]. Qed.

Lemma loads4_matched (k : 'I_4) :
  pt_s (load4 k) 0 = 0 /\ 0 < pt_z0 (load4 k) 0 0 0.
Proof.
have E : load4 k = load Demo.wg 0 by case: k => [[|[|[|[|k]]]] Hk].
rewrite E /pt_s /pt_z0 [nth _ _ _]/= [X in _ /\ 0 < X]/=; split.
  by apply/matrixP => i j; rewrite !mxE.
by rewrite mxE ltr0n.
Qed.

Lemma loads4_regular (f : nat) :
  (f < 1)%N -> regular_at Demo.w Demo.dut loads4 f.
Proof.
case: f => [_|//].
exact: (regular_matched demo_w_pos demo_dut_matched loads4_matched).
Qed.

Lemma demo_at_50 (f : nat) :
  (f < 1)%N ->
  regular_z0 Demo.w (const_mx 50 : 'rV[rat]_4)
  && (z_at Demo.w Demo.dut f + diag_mx (const_mx 50) \in unitmx).
Proof.
case: f => [_|//]; have [Es pz] := demo_dut_matched.
have [_ ->] := z_defined_matched demo_w_pos Es pz.
rewrite (regular_z0_pos demo_w_pos) /=; first by move=> k; rewrite mxE ltr0n.
by apply: unitmx_diag_pos => k //; rewrite mxE ltr0n.
Qed.

Lemma demo_tippits_runs :
  exists comp g',
    composer Demo.tk 50 Demo.dut loads4 = (Ok comp, g').
Proof.
have [g [Ec _]] :=
  composer_loop demo_dut_shape loads4_shape loads4_regular Demo.add_noise 50
    (erefl _ : size (m_frequency Demo.wg) = 1%N).
by eexists; exists g; rewrite Ec (finish_ok loads4_regular) //; exact: demo_at_50.
Qed.

(** Witness of C10: the measurement of the pair (0, 1) in a call of
    [tippits]. *)
Lemma tippits_one_load_witness :
  exists comp g' three_port two_port,
    [/\ tippits Demo.tk 50 Demo.dut 0 None g00 = (Ok comp, g'),
        rf_connect Demo.tk Demo.dut 2 (wg_load Demo.tk 0) 0 = Ok three_port,
        rf_connect Demo.tk three_port 2 (wg_load Demo.tk 0) 0 = Ok two_port
      & dict_get (measured g') (0, 1)%N = Some two_port].
Proof.
have [E1 H] := tippits_one_load Demo.tk 50 Demo.dut 0 None g00.
have [comp [g' Ec]] := demo_tippits_runs.
have Et : tippits Demo.tk 50 Demo.dut 0 None g00 = (Ok comp, g').
  by rewrite E1; exact: Ec.
have [zL _ Hp] := H comp g' Et.
have [c [d [e [three [two [zn [r [Ep [C1 C2] D _ _]]]]]]]] := Hp 0%N 1%N isT.
case: Ep C1 C2 => <- _ <- C1 C2.
by exists comp, g', three, two; split; [exact: Et | exact: C1 | exact: C2 | exact: D].
Defined.

End TippitsInstance.
(** ** The list of measurements *)

Section CombinationFacts.

Import Ports.

Lemma combinations0 (T : Type) (xs : seq T) : combinations xs 0 = [:: [::]].
Proof. by case: xs. Qed.

Lemma combinations1 (T : Type) (xs : seq T) :
  combinations xs 1 = [seq [:: x] | x <- xs].
Proof. by elim: xs => [|x t IH] //=; rewrite combinations0 IH. Qed.

Lemma combinations_cons (T : Type) (x : T) (t : seq T) (r : nat) :
  combinations (x :: t) r.+1
  = [seq x :: c | c <- combinations t r] ++ combinations t r.+1.
Proof. by []. Qed.

Lemma combinations_sub (T : eqType) (xs : seq T) (r : nat) (c : seq T) :
  c \in combinations xs r -> {subset c <= xs}.
Proof.
elim: xs r c => [|x t IH] [|r] c //=; rewrite ?inE; try by move/eqP->.
rewrite mem_cat => /orP[/mapP[c' /IH sub ->]|/IH sub] y.
  by rewrite !inE => /orP[->|/sub ->] //; rewrite orbT.
by move/sub; rewrite inE => ->; rewrite orbT.
Qed.

Lemma combinations_uniq (T : eqType) (xs : seq T) (r : nat) :
  uniq xs -> uniq (combinations xs r).
Proof.
elim: xs r => [|x t IH] [|r] //= /andP[nx ut].
rewrite cat_uniq map_inj_uniq; first by move=> c c' [].
rewrite !IH //= andbT; apply/hasPn => c /combinations_sub sub.
apply/negP => /mapP[c' _ Ec]; move: nx.
by rewrite (sub x) // Ec mem_head.
Qed.

(** X1: [combinations(xs, r)] lists ['C(n, r)] combinations of [r] elements
    each, [n] being the length of [xs]: a device with [n] ports asks for
    ['C(n, 2)] measurements. *)
Theorem combinations_count (T : Type) (xs : seq T) (r : nat) :
  size (combinations xs r) = 'C(size xs, r) /\
  all (fun c => size c == r) (combinations xs r).
Proof.
elim: xs r => [|x t IH] [|r] //=.
have [s1 a1] := IH r; have [s2 a2] := IH r.+1.
rewrite size_cat size_map s1 s2 binS addnC all_cat a2 andbT; split=> //.
by rewrite all_map; apply: sub_all a1 => c /=.
Qed.

Lemma mem_combos2 (m n : nat) (ab : seq nat) :
  (ab \in combinations (iota m n) 2)
  = (if ab is [:: a; b] then [&& m <= a, a < b & b < m + n] else false).
Proof.
elim: n m ab => [|n IH] m ab /=.
  case: ab => [|a [|b [|? ?]]] //; rewrite addn0 in_nil.
  by apply/esym/negbTE/negP => /and3P[ma ab /(leq_ltn_trans (ltnW ab))];
     rewrite ltnNge ma.
rewrite mem_cat IH combinations1 -map_comp.
case: ab => [|a [|b [|x r]]] /=.
- by rewrite orbF; apply/negbTE/negP => /mapP[].
- by rewrite orbF; apply/negbTE/negP => /mapP[].
- rewrite addSnnS [m <= a]leq_eqVlt andb_orl eq_sym; congr (_ || _).
  apply/mapP/and3P => [[y]|[/eqP-> mb bn]].
    by rewrite mem_iota addSnnS => /andP[my yn] [-> ->]; split.
  by exists b; rewrite ?mem_iota ?mb ?addSnnS.
- by rewrite orbF; apply/negbTE/negP => /mapP[].
Qed.

Lemma mem_port_combos (n : nat) (ab : seq nat) :
  (ab \in port_combos n) = (if ab is [:: a; b] then a < b < n else false).
Proof.
by rewrite /port_combos /arange mem_combos2; case: ab => [|a [|b [|]]].
Qed.

Lemma port_combos_uniq (n : nat) : uniq (port_combos n).
Proof. by apply: combinations_uniq; apply: iota_uniq. Qed.

(** X2: the list of measurements holds each pair [a < b] of ports of an
    [n]-port exactly once, and nothing else. *)
Theorem port_combos_spec (n : nat) :
  uniq (port_combos n) /\
  forall ab : seq nat,
    (ab \in port_combos n) = (if ab is [:: a; b] then a < b < n else false).
Proof.
split; first by apply: combinations_uniq; apply: iota_uniq.
by move=> ab; rewrite /port_combos /arange mem_combos2; case: ab => [|a [|b [|]]].
Qed.

Lemma count_port (m n k : nat) :
  m <= k < m + n ->
  count (fun ab : seq nat => k \in ab) (combinations (iota m n) 2) = n.-1.
Proof.
elim: n m => [|n IH] m; first by rewrite addn0; case: ltngtP.
rewrite /= count_cat combinations1 -map_comp count_map.
rewrite leq_eqVlt => /andP[/orP[/eqP<-|mk] kn].
  rewrite (@eq_count _ _ predT); first by move=> y /=; rewrite mem_head.
  rewrite count_predT size_iota (@eq_in_count _ _ pred0).
    move=> ab; rewrite mem_combos2.
    case: ab => [|a [|b [|? ?]]] // /and3P[ma ab _].
    by rewrite !inE /= (ltn_eqF ma) (ltn_eqF (ltn_trans ma ab)).
  by rewrite count_pred0 addn0.
rewrite (@eq_count _ _ (pred1 k)).
  by move=> y /=; rewrite !inE (gtn_eqF mk) eq_sym.
rewrite count_uniq_mem ?iota_uniq // mem_iota mk addSnnS kn IH ?mk ?addSnnS //.
by case: n kn {IH} => // kn; move: mk; rewrite ltnNge -ltnS -[m.+1]addn1 kn.
Qed.

Lemma both_in (a b m k : nat) :
  a < b -> m < k ->
  (m \in [:: a; b]) && (k \in [:: a; b]) = ([:: a; b] == [:: m; k]).
Proof.
move=> ab mk; rewrite !inE !eqseq_cons eqxx andbT.
rewrite [a == m]eq_sym [b == k]eq_sym.
case: (eqVneq m a) => [Ea|_] /=; first by rewrite -Ea (gtn_eqF mk).
case: (eqVneq m b) => [Eb|_] //=; rewrite -Eb in ab *.
by rewrite (gtn_eqF mk) (gtn_eqF (ltn_trans ab mk)).
Qed.

(** X3: over the whole list of measurements of an [n]-port, the cell
    [(m, k)] of the composite is assigned once when [m != k], by the pair of
    the two ports, and [n - 1] times when [m = k]: each reflection
    coefficient of a 4-port is measured three times. *)
Theorem cell_write_count (n m k : nat) :
  m < n -> k < n ->
  count (fun ab : seq nat =>
           if ab is [:: a; b] then (m, k) \in written_cells a b else false)
        (port_combos n)
  = if m == k then n.-1 else 1.
Proof.
move=> mn kn; have u4 := port_combos_uniq n; have mem4 := mem_port_combos n.
have E : {in port_combos n, forall ab : seq nat,
    (if ab is [:: a; b] then (m, k) \in written_cells a b else false)
    = (m \in ab) && (k \in ab)}.
  move=> ab; rewrite mem4; case: ab => [|a [|b [|? ?]]] // _.
  by rewrite in_written_cells.
rewrite (eq_in_count E); case: (ltngtP m k) => [mk|km|<-].
- rewrite (@eq_in_count _ _ (pred1 [:: m; k])).
    move=> ab; rewrite mem4; case: ab => [|a [|b [|? ?]]] // /andP[ab _].
    exact: both_in.
  by rewrite count_uniq_mem // mem4 mk kn.
- rewrite (@eq_in_count _ _ (pred1 [:: k; m])).
    move=> ab; rewrite mem4; case: ab => [|a [|b [|? ?]]] // /andP[ab _].
    by rewrite andbC; exact: both_in.
  by rewrite count_uniq_mem // mem4 km mn.
- rewrite (@eq_count _ _ (fun ab : seq nat => m \in ab)).
    by move=> ab /=; rewrite andbb.
  by rewrite /port_combos /arange count_port.
Qed.

Lemma cell_write_count_witness :
  count (fun ab : seq nat =>
           if ab is [:: a; b] then (2, 2) \in written_cells a b else false)
        (port_combos 4)
  = if 2 == 2 then 4.-1 else 1.
Proof. exact: (@cell_write_count 4 2 2 isT isT). Defined.

(** X4: the loop body serves 4-port devices only: for a device with any
    other number of ports, every pair of the list of measurements raises
    [ValueError] at the unpacking [c, d = ...]. *)
Theorem plan_other_port_counts (n a b : nat) :
  [:: a; b] \in port_combos n -> n != 4 -> plan n a b = Err ValueError.
Proof.
rewrite mem_port_combos => /andP[ab bn] n4.
exact: plan_needs_4port.
Qed.

Lemma plan_other_port_counts_witness :
  [:: 0; 2] \in port_combos 3 /\ plan 3 0 2 = Err ValueError.
Proof.
by split; [|apply: (@plan_other_port_counts 3 0 2)].
Defined.

End CombinationFacts.

(** ** Slice assignment into the composite *)

Section SliceFacts.

Import Ports.

Variables (Hz T : Type).

Notation ntwk := (network Hz T).

Lemma assign_fits (n : nat) (src : seq T) :
  is_ok (assign n src) = (size src == n) || (size src == 1).
Proof.
rewrite /assign; case: eqP => //= _.
by case: src => [|v [|? ?]].
Qed.

Lemma assign_one (n : nat) (v : T) : assign n [:: v] = Ok (nseq n v).
Proof. by rewrite /assign /=; case: eqP => // <-. Qed.

Lemma set_col_fits (P : nat) (a : seq 'M[T]_P) (m n : nat) (src : seq T) :
  m < P -> n < P -> (size src == size a) || (size src == 1) ->
  exists2 a', set_col a m n src = Ok a' & size a' = size a.
Proof.
move=> mP nP; rewrite -assign_fits /set_col.
rewrite (ord_of_lt_ok mP) (ord_of_lt_ok nP) /=.
case E: (assign _ _) => [vals|] //= _; eexists; first by [].
by rewrite size_map size_zip (assign_size E) minnn.
Qed.

Lemma set_zcol_fits (P : nat) (z : seq 'rV[T]_P) (k : nat) (src : seq T) :
  k < P -> (size src == size z) || (size src == 1) ->
  exists2 z', set_zcol z k src = Ok z' & size z' = size z.
Proof.
move=> kP; rewrite -assign_fits /set_zcol (ord_of_lt_ok kP) /=.
case E: (assign _ _) => [vals|] //= _; eexists; first by [].
by rewrite size_map size_zip (assign_size E) minnn.
Qed.

Lemma stuff_cell_fits (tp : ntwk 2) (comp : ntwk 4) (im jn : nat * nat) :
  im.1 < 2 -> jn.1 < 2 -> im.2 < 4 -> jn.2 < 4 ->
  (size (s tp) == size (s comp)) || (size (s tp) == 1) ->
  exists2 comp', stuff_cell tp comp im jn = Ok comp'
               & size (s comp') = size (s comp) /\ z0 comp' = z0 comp.
Proof.
move=> i2 j2 m4 n4 sz; rewrite /stuff_cell /get_col.
rewrite (ord_of_lt_ok i2) (ord_of_lt_ok j2) /=.
have [|s' -> sz'] := @set_col_fits _ (s comp) _ _
    (col (s tp) (Ordinal i2) (Ordinal j2)) m4 n4; first by rewrite size_col.
by eexists.
Qed.

(** [stuff] succeeds when the ports are ports of the composite and the
    arrays of the 2-port can be broadcast to those of the composite. *)
Lemma stuff_fits (comp : ntwk 4) (tp : ntwk 2) (a b : nat) :
  a < 4 -> b < 4 ->
  (size (s tp) == size (s comp)) || (size (s tp) == 1) ->
  (size (z0 tp) == size (z0 comp)) || (size (z0 tp) == 1) ->
  exists comp', stuff comp tp a b = Ok comp'.
Proof.
move=> a4 b4 ss sz; rewrite /stuff /=.
have [c1 -> [s1 z1]] /= :=
  @stuff_cell_fits tp comp (0, a) (0, a) isT isT a4 a4 ss.
have [|c2 -> [s2 z2]] /= :=
  @stuff_cell_fits tp c1 (0, a) (1, b) isT isT a4 b4; first by rewrite s1.
have [|c3 -> [s3 z3]] /= :=
  @stuff_cell_fits tp c2 (1, b) (0, a) isT isT b4 a4; first by rewrite s2 s1.
have [|c4 -> [s4 z4]] /= :=
  @stuff_cell_fits tp c3 (1, b) (1, b) isT isT b4 b4;
  first by rewrite s3 s2 s1.
have o0 : forall H, @Ordinal 2 0 H = ord0 by move=> H; apply: val_inj.
have o1 : forall H, @Ordinal 2 1 H = lift ord0 ord0
  by move=> H; apply: val_inj.
rewrite o0 o1.
have [|q1 -> y1] /= := @set_zcol_fits _ (z0 c4) a (zcol (z0 tp) ord0) a4.
  by rewrite size_zcol z4 z3 z2 z1.
have [|q2 -> y2] /= := @set_zcol_fits _ q1 b (zcol (z0 tp) (lift ord0 ord0)) b4.
  by rewrite size_zcol y1 z4 z3 z2 z1.
by eexists.
Qed.

(** X5: reading back what [stuff] wrote. When the 2-port has as many
    frequency points as the composite, the four cells of the pair [(a, b)]
    and the two impedance slots read as the corresponding columns of the
    2-port: port 0 of the 2-port is port [a], port 1 is port [b]. *)
Theorem stuff_read_back (comp comp' : ntwk 4) (tp : ntwk 2) (a b : nat) :
  a != b ->
  size (s tp) = size (s comp) -> size (z0 tp) = size (z0 comp) ->
  stuff comp tp a b = Ok comp' ->
  [/\ [/\ get_col (s comp') a a = get_col (s tp) 0 0,
          get_col (s comp') a b = get_col (s tp) 0 1,
          get_col (s comp') b a = get_col (s tp) 1 0
        & get_col (s comp') b b = get_col (s tp) 1 1],
      get_zcol (z0 comp') a = get_zcol (z0 tp) 0
    & get_zcol (z0 comp') b = get_zcol (z0 tp) 1].
Proof.
move=> ne ss sz St; have [[a4 b4] _ _ C Q] := stuff_ok ne St.
pose oa : 'I_4 := Ordinal a4; pose ob : 'I_4 := Ordinal b4.
have cell (x y : 'I_4) :
    val x \in [:: a; b] -> val y \in [:: a; b] ->
    get_col (s comp') x y = Ok (col (s tp) (pos2 a x) (pos2 a y)).
  move=> xin yin; rewrite get_col_ord; move: (C x y); rewrite xin yin /=.
  by rewrite -ss -(size_col (s tp) (pos2 a x) (pos2 a y)) assign_same => <-.
have slot (k : 'I_4) :
    val k \in [:: a; b] ->
    get_zcol (z0 comp') k = Ok (zcol (z0 tp) (pos2 a k)).
  move=> kin; rewrite get_zcol_ord; move: (Q k); rewrite kin.
  by rewrite -sz -(size_zcol (z0 tp) (pos2 a k)) assign_same => <-.
have ain : val oa \in [:: a; b] by rewrite mem_head.
have bin : val ob \in [:: a; b] by rewrite !inE eqxx orbT.
have g0 := @get_col_ord _ 2 (s tp); have q0 := @get_zcol_ord _ 2 (z0 tp).
split; first split.
- by rewrite (cell oa oa) //= pos2_a (g0 ord0 ord0).
- by rewrite (cell oa ob) //= pos2_a pos2_b // (g0 ord0 (lift ord0 ord0)).
- by rewrite (cell ob oa) //= pos2_a pos2_b // (g0 (lift ord0 ord0) ord0).
- by rewrite (cell ob ob) //= pos2_b // (g0 (lift ord0 ord0) (lift ord0 ord0)).
- by rewrite (slot oa) //= pos2_a (q0 ord0).
- by rewrite (slot ob) //= pos2_b // (q0 (lift ord0 ord0)).
Qed.

(** X6: numpy broadcasting in the assignments of [stuff]. A 2-port with a
    single frequency point is accepted whatever the number of points of the
    composite, and its one value fills the whole column of each cell and of
    each impedance slot of the pair. *)
Theorem stuff_broadcast (comp : ntwk 4) (f : seq Hz) (S1 : 'M[T]_2)
    (z1 : 'rV[T]_2) (a b : nat) :
  a != b -> a < 4 -> b < 4 ->
  exists comp',
    [/\ stuff comp (Network f [:: S1] [:: z1]) a b = Ok comp',
        forall x y : 'I_4, val x \in [:: a; b] -> val y \in [:: a; b] ->
          col (s comp') x y = nseq (size (s comp)) (S1 (pos2 a x) (pos2 a y))
      & forall k : 'I_4, val k \in [:: a; b] ->
          zcol (z0 comp') k = nseq (size (z0 comp)) (z1 ord0 (pos2 a k))].
Proof.
move=> ne a4 b4; set tp := Network f _ _.
have [|//|comp' St] := @stuff_fits comp tp a b a4 b4; rewrite ?orbT //.
have [_ _ _ C Q] := stuff_ok ne St.
exists comp'; split=> // [x y xin yin|k kin].
  by move: (C x y); rewrite xin yin /= assign_one => -[].
by move: (Q k); rewrite kin /= assign_one => -[].
Qed.

(** X7: the two ways [stuff] raises. A port index that is not below 4 is
    refused with [IndexError]; a 2-port whose number of frequency points is
    neither that of the composite nor 1 cannot be broadcast, and the first
    assignment raises [ValueError]. *)
Theorem stuff_raises (comp : ntwk 4) (tp : ntwk 2) (a b : nat) :
  (4 <= a -> stuff comp tp a b = Err IndexError) /\
  (a < 4 -> size (s tp) != size (s comp) -> size (s tp) != 1 ->
   stuff comp tp a b = Err ValueError).
Proof.
split=> [a4|a4 ns n1]; rewrite /stuff /= /stuff_cell /get_col /= /set_col.
  have -> : ord_of 4 a = Err IndexError; last by [].
  rewrite /ord_of; move: (erefl (a < 4)); case: {2 3}(a < 4) => // H.
  by move: a4; rewrite leqNgt H.
rewrite (ord_of_lt_ok a4) /=.
set src := col _ _ _.
have sz : size src = size (s tp) by rewrite size_col.
rewrite /assign sz (negbTE ns).
case: src sz => [|v [|? ?]] //= sz.
by rewrite -sz in n1.
Qed.

End SliceFacts.

Section SliceInstances.

Import GRing.Theory.
Local Open Scope ring_scope.

Lemma stuff_read_back_witness :
  exists comp',
    stuff (Network [:: 1; 2]%N [:: 0; 0] [:: 0; 0] : network nat rat 4)
          (Network [:: 1; 2]%N [:: 1%:M; 1%:M] [:: const_mx 50; const_mx 75])
          0%N 1%N = Ok comp'
    /\ get_zcol (z0 comp') 1 = Ok [:: 50; 75].
Proof.
pose c0 : network nat rat 4 := Network [:: 1; 2]%N [:: 0; 0] [:: 0; 0].
pose t0 : network nat rat 2 :=
  Network [:: 1; 2]%N [:: 1%:M; 1%:M] [:: const_mx 50; const_mx 75].
have [comp' St] := @stuff_total nat rat c0 t0 0%N 1%N isT isT (erefl _) (erefl _).
exists comp'; split; first exact: St.
have [_ _ ->] := @stuff_read_back nat rat c0 comp' t0 0%N 1%N isT (erefl _)
                   (erefl _) St.
by rewrite (@get_zcol_ord _ 2 _ (lift ord0 ord0)) /zcol /= !mxE.
Defined.

Lemma stuff_broadcast_witness :
  exists comp',
    stuff (Network [:: 1; 2; 3]%N [:: 0; 0; 0] [:: 0; 0; 0] : network nat rat 4)
          (Network [:: 1; 2; 3]%N [:: 1%:M] [:: const_mx 50]) 0%N 1%N = Ok comp'
    /\ col (s comp') ord0 ord0 = [:: 1; 1; 1].
Proof.
have [comp' [St C _]] :=
  @stuff_broadcast nat rat (Network [:: 1; 2; 3]%N [:: 0; 0; 0] [:: 0; 0; 0])
     [:: 1; 2; 3]%N 1%:M (const_mx 50) 0%N 1%N isT isT isT.
exists comp'; split; first exact: St.
by rewrite (C ord0 ord0) //= mxE.
Defined.

Lemma stuff_raises_witness :
  stuff (Network [:: 1; 2; 3]%N [:: 0; 0; 0] [:: 0; 0; 0] : network nat rat 4)
        (Network [:: 1; 2]%N [:: 0; 0] [:: 0; 0]) 0%N 1%N = Err ValueError.
Proof.
by have [_ H] := @stuff_raises nat rat
     (Network [:: 1; 2; 3]%N [:: 0; 0; 0] [:: 0; 0; 0])
     (Network [:: 1; 2]%N [:: 0; 0] [:: 0; 0]) 0%N 1%N; apply: H.
Defined.

End SliceInstances.

(** ** The two dictionaries *)

Section KeyFacts.

Variables (K : eqType) (V : Type).

Lemma keys_dict_set (d : dict K V) (k : K) (v : V) :
  keys (dict_set d k v) = if k \in keys d then keys d else rcons (keys d) k.
Proof.
elim: d => [|[k0 v0] d IH] //=; rewrite inE [k == k0]eq_sym.
by case: eqP => [->|_] //=; rewrite IH; case: ifP.
Qed.

Lemma mem_keys_dict_set (d : dict K V) (k k' : K) (v : V) :
  (k' \in keys (dict_set d k v)) = (k' == k) || (k' \in keys d).
Proof.
rewrite keys_dict_set; case: ifP => [kin|_]; last by rewrite mem_rcons inE.
by case: eqP => [->|].
Qed.


End KeyFacts.

Section DictionaryFacts.

Import Ports.

Variables (Hz T Noise : Type).
Variable tk : toolkit Hz T Noise.

Notation ntwk := (network Hz T).

(** What an iteration can have done to the dictionaries, whether it ended
    or raised. *)
Lemma body_globals (dut : ntwk 4) (loads : seq (ntwk 1)) (zl : seq (seq T))
    (noise : option Noise) (comp : ntwk 4) (g g' : globals Hz T)
    (ab : seq nat) (res : result (ntwk 4)) :
  body tk dut loads zl noise comp g ab = (res, g') ->
  g' = g \/
  exists a b tp,
    [/\ ab = [:: a; b], raw_measurement tk dut loads noise a b = Ok tp,
        measured g' = dict_set (measured g) (a, b) tp
      & measured_renorm g' = measured_renorm g \/
        exists2 tp', renormalized tk zl tp a b = Ok tp'
                   & measured_renorm g'
                     = dict_set (measured_renorm g) (a, b) tp'].
Proof.
rewrite /body; case: ab => [|a [|b [|? ?]]] /=; try by case=> _ <-; left.
case R: (raw_measurement _ _ _ _ _ _) => [tp|e] /=; last by case=> _ <-; left.
case N: (renormalized _ _ _ _ _) => [tp'|e] /= [_ <-]; right; exists a, b, tp.
  by split=> //; right; exists tp'.
by split=> //; left.
Qed.

(** X11: a key of [measured_renorm] is always a key of [measured]: the loop
    keeps this whether it runs through or stops on an exception, since the
    raw measurement of a pair is stored before its renormalized copy. *)
Theorem renorm_keys_in_measured (dut : ntwk 4) (loads : seq (ntwk 1))
    (zl : seq (seq T)) (noise : option Noise) (combos : seq (seq nat))
    (comp : ntwk 4) (g g' : globals Hz T) (res : result (ntwk 4)) :
  {subset keys (measured_renorm g) <= keys (measured g)} ->
  run_loop tk dut loads zl noise combos comp g = (res, g') ->
  {subset keys (measured_renorm g') <= keys (measured g')}.
Proof.
elim: combos comp g => [|ab rest IH] comp g sub /=; first by case=> _ <-.
case B: (body _ _ _ _ _ _ _ _) => [r1 g1].
have sub1 : {subset keys (measured_renorm g1) <= keys (measured g1)}.
  case: (body_globals B) => [->//|[a [b [tp [_ _ -> Hn]]]]] k.
  rewrite mem_keys_dict_set.
  case: Hn => [->|[tp' _ ->]]; first by move/sub->; rewrite orbT.
  by rewrite mem_keys_dict_set => /orP[->//|/sub->]; rewrite orbT.
by case: r1 B => [c1|e] B; [apply: IH | case=> _ <-].
Qed.

(** X8: after a loop that ran through, the two dictionaries correspond:
    for each pair of the list, [measured] holds the raw measurement of the
    pair and [measured_renorm] holds that very network renormalized to the
    impedances of the loads of its two ports, whatever was stored under
    these keys before. *)
Theorem dictionaries_correspond (dut : ntwk 4) (loads : seq (ntwk 1))
    (zl : seq (seq T)) (noise : option Noise) (combos : seq (seq nat))
    (comp0 comp : ntwk 4) (g0 g : globals Hz T) (a b : nat) :
  uniq combos ->
  run_loop tk dut loads zl noise combos comp0 g0 = (Ok comp, g) ->
  [:: a; b] \in combos ->
  exists tp tp',
    [/\ raw_measurement tk dut loads noise a b = Ok tp,
        dict_get (measured g) (a, b) = Some tp,
        renormalized tk zl tp a b = Ok tp'
      & dict_get (measured_renorm g) (a, b) = Some tp'].
Proof.
elim: combos comp0 g0 => [|p rest IH] comp0 g0 //= /andP[nin urest].
move/run_loop_cons=> [comp1 [g1 [Hb Hr]]].
case: (boolP ([:: a; b] \in rest)) => [abin _|abnin]; first exact: IH Hr abin.
rewrite inE (negbTE abnin) orbF => /eqP Ep.
have [a' [b' [tp [tp' [Eab R N _ Eg]]]]] := body_ok Hb.
move: Eab; rewrite -Ep => -[Ea Eb]; rewrite -{a'}Ea -{b'}Eb in R N Eg.
have [-> ->] := run_loop_dict_frame Hr abnin.
by exists tp, tp'; rewrite Eg /= !dict_get_set !eqxx.
Qed.

(** The dictionaries after any part of a run: no key is removed, the keys
    keep their order, new keys come last and are pairs of the list, and the
    entries of the other keys are as they were. *)
Lemma run_loop_globals (dut : ntwk 4) (loads : seq (ntwk 1))
    (zl : seq (seq T)) (noise : option Noise) (combos : seq (seq nat))
    (comp : ntwk 4) (g g' : globals Hz T) (res : result (ntwk 4)) :
  run_loop tk dut loads zl noise combos comp g = (res, g') ->
  [/\ exists2 more, keys (measured g') = keys (measured g) ++ more
                  & all (fun k => [:: k.1; k.2] \in combos) more,
      exists2 more, keys (measured_renorm g') = keys (measured_renorm g) ++ more
                  & all (fun k => [:: k.1; k.2] \in combos) more
    & forall k, [:: k.1; k.2] \notin combos ->
        dict_get (measured g') k = dict_get (measured g) k /\
        dict_get (measured_renorm g') k = dict_get (measured_renorm g) k].
Proof.
elim: combos comp g => [|ab rest IH] comp g /=.
  by case=> _ <-; split=> //; exists [::]; rewrite ?cats0.
case B: (body _ _ _ _ _ _ _ _) => [r1 g1] H.
have grow (d : dict (nat * nat)%type (ntwk 2)) k v :
    exists2 more, keys (dict_set d k v) = keys d ++ more
                & all (fun k' => k' == k) more.
  rewrite keys_dict_set; case: ifP => _; first by exists [::]; rewrite ?cats0.
  by exists [:: k]; rewrite ?cats1 //= eqxx.
have [[m1 K1 A1] [m2 K2 A2] F1] :
  [/\ exists2 more, keys (measured g1) = keys (measured g) ++ more
                  & all (fun k => [:: k.1; k.2] == ab) more,
      exists2 more, keys (measured_renorm g1) = keys (measured_renorm g) ++ more
                  & all (fun k => [:: k.1; k.2] == ab) more
    & forall k, [:: k.1; k.2] != ab ->
        dict_get (measured g1) k = dict_get (measured g) k /\
        dict_get (measured_renorm g1) k = dict_get (measured_renorm g) k].
  case: (body_globals B) => [->|[a [b [tp [Eab _ Em Hn]]]]].
    by split=> //; exists [::]; rewrite ?cats0.
  have ne (k : nat * nat) : [:: k.1; k.2] != ab -> k == (a, b) = false.
    by rewrite Eab; case: k => k1 k2 /=; apply: contraNF => /eqP[-> ->].
  have same (k : nat * nat) : k == (a, b) -> [:: k.1; k.2] == ab.
    by move/eqP->; rewrite Eab.
  split.
  - have [m Km Am] := grow (measured g) (a, b) tp; exists m; rewrite ?Em //.
    by apply: sub_all Am.
  - case: Hn => [->|[tp' _ ->]]; first by exists [::]; rewrite ?cats0.
    have [m Km Am] := grow (measured_renorm g) (a, b) tp'; exists m => //.
    by apply: sub_all Am.
  - move=> k /ne nk; rewrite Em dict_get_set nk; split=> //.
    by case: Hn => [->|[tp' _ ->]] //; rewrite dict_get_set nk.
have widen m : all (fun k : nat * nat => [:: k.1; k.2] == ab) m ->
    all (fun k : nat * nat => [:: k.1; k.2] \in ab :: rest) m.
  by apply: sub_all => k /eqP->; rewrite mem_head.
case: r1 B H => [c1|e] B H; last first.
  case: H => _ <-; split; [exists m1 | exists m2 |] => //; try exact: widen.
  by move=> k; rewrite inE negb_or => /andP[/F1].
have [[n1 L1 B1] [n2 L2 B2] F2] := IH _ _ H.
have widen' m : all (fun k : nat * nat => [:: k.1; k.2] \in rest) m ->
    all (fun k : nat * nat => [:: k.1; k.2] \in ab :: rest) m.
  by apply: sub_all => k kin; rewrite inE kin orbT.
split.
- by exists (m1 ++ n1); rewrite ?L1 ?K1 ?catA // all_cat widen ?widen'.
- by exists (m2 ++ n2); rewrite ?L2 ?K2 ?catA // all_cat widen ?widen'.
- move=> k; rewrite inE negb_or => /andP[nk nr].
  by have [-> ->] := F2 k nr; apply: F1.
Qed.

(** X10: [tippits] works on the two global dictionaries of the notebook.
    Whether it returns or raises, it removes no key and keeps the keys in
    their order; the keys it adds are pairs of the list of measurements; and
    the entries under any other key are left as they were. *)
Theorem tippits_globals (fifty : T) (dut : ntwk 4) (gamma : T)
    (noise : option Noise) (g g' : globals Hz T) (res : result (ntwk 4)) :
  tippits tk fifty dut gamma noise g = (res, g') ->
  [/\ exists2 more, keys (measured g') = keys (measured g) ++ more
                  & all (fun k => [:: k.1; k.2] \in port_combos 4) more,
      exists2 more, keys (measured_renorm g') = keys (measured_renorm g) ++ more
                  & all (fun k => [:: k.1; k.2] \in port_combos 4) more
    & forall k, [:: k.1; k.2] \notin port_combos 4 ->
        dict_get (measured g') k = dict_get (measured g) k /\
        dict_get (measured_renorm g') k = dict_get (measured_renorm g) k].
Proof.
rewrite /tippits; case: (z_loads_of _ _) => [zl|e]; last first.
  by case=> _ <-; split=> //; exists [::]; rewrite ?cats0.
case R: (run_loop _ _ _ _ _ _ _ _) => [r g1].
have H := run_loop_globals R.
by case: r R => [c|e] R [_ <-].
Qed.

End DictionaryFacts.

(** ** More on the loop *)

Section LoopExtras.

Import Ports.

Variables (Hz T Noise : Type).
Variable tk : toolkit Hz T Noise.
Variable fifty : T.

Notation ntwk := (network Hz T).

(** X9: after a loop that ran through on empty dictionaries, the keys of
    both dictionaries are the six pairs in the order of the measurements,
    and the selection [k[0] == '0'] made before the plots of [S11] gives the
    three measurements of port 0, with ports 1, 2 and 3 in that order. *)
Theorem s11_sets (dut : ntwk 4) (loads : seq (ntwk 1)) (zl : seq (seq T))
    (noise : option Noise) (comp0 comp : ntwk 4) (g : globals Hz T) :
  run_loop tk dut loads zl noise (port_combos 4) comp0 (Globals [::] [::])
  = (Ok comp, g) ->
  [/\ keys (measured g)
      = [:: (0, 1); (0, 2); (0, 3); (1, 2); (1, 3); (2, 3)],
      keys (measured_renorm g) = keys (measured g),
      mapM (raw_measurement tk dut loads noise 0) [:: 1; 2; 3]
      = Ok (s11_set (measured g))
    & mapM (fun b => tp <~ raw_measurement tk dut loads noise 0 b ;;
                     renormalized tk zl tp 0 b) [:: 1; 2; 3]
      = Ok (s11_set (measured_renorm g))].
Proof.
rewrite port_combos4.
move/run_loop_cons=> [c1 [g1 [/body_ok[? [? [t1 [r1 [[<- <-] R1 N1 _ ->]]]]] ]]].
move/run_loop_cons=> [c2 [g2 [/body_ok[? [? [t2 [r2 [[<- <-] R2 N2 _ ->]]]]] ]]].
move/run_loop_cons=> [c3 [g3 [/body_ok[? [? [t3 [r3 [[<- <-] R3 N3 _ ->]]]]] ]]].
move/run_loop_cons=> [c4 [g4 [/body_ok[? [? [t4 [r4 [[<- <-] R4 N4 _ ->]]]]] ]]].
move/run_loop_cons=> [c5 [g5 [/body_ok[? [? [t5 [r5 [[<- <-] R5 N5 _ ->]]]]] ]]].
move/run_loop_cons=> [c6 [g6 [/body_ok[? [? [t6 [r6 [[<- <-] R6 N6 _ ->]]]]] ]]].
case=> _ <-; split=> //=.
- by rewrite R1 /= R2 /= R3.
- by rewrite R1 /= N1 /= R2 /= N2 /= R3 /= N3.
Qed.

Lemma eq_cols (P : nat) (a b : seq 'M[T]_P) :
  size a = size b -> (forall x y, col a x y = col b x y) -> a = b.
Proof.
elim: a b => [|A a IH] [|B b] //= [sz] H; congr (_ :: _).
  by apply/matrixP => x y; case: (H x y).
by apply: IH => // x y; case: (H x y).
Qed.

Lemma eq_zcols (P : nat) (a b : seq 'rV[T]_P) :
  size a = size b -> (forall k, zcol a k = zcol b k) -> a = b.
Proof.
elim: a b => [|A a IH] [|B b] //= [sz] H; congr (_ :: _).
  by apply/rowP => k; case: (H k).
by apply: IH => // k; case: (H k).
Qed.

(** The dictionaries left by a loop that ran through do not depend on the
    composite. *)
Lemma run_loop_same_globals (dut : ntwk 4) (loads : seq (ntwk 1))
    (zl : seq (seq T)) (noise : option Noise) (combos : seq (seq nat))
    (comp0 comp0' comp comp' : ntwk 4) (g0 g g' : globals Hz T) :
  run_loop tk dut loads zl noise combos comp0 g0 = (Ok comp, g) ->
  run_loop tk dut loads zl noise combos comp0' g0 = (Ok comp', g') ->
  g = g'.
Proof.
elim: combos comp0 comp0' g0 => [|ab rest IH] c0 c0' g0.
  by case=> _ <- [_ <-].
move/run_loop_cons=> [c1 [g1 [/body_ok[a [b [tp [tp' [-> R N _ E1]]]]] H1]]].
move/run_loop_cons=> [c2 [g2 [/body_ok[? [? [up [up' [[<- <-] R' N' _ E2]]]]] H2]]].
move: R' N' E2; rewrite R => -[<-]; rewrite N => -[<-] E2.
by rewrite -E1 in E2; rewrite E2 in H2; apply: IH H1 H2.
Qed.

(** X12: the composite that the loop returns owes nothing to the contents
    of the composite it started from: every cell and every impedance slot
    has been assigned. Two runs from composites on the same frequency grid
    with the same number of points return the same composite, which is on
    that grid and has that number of points. *)
Theorem composite_overwritten (dut : ntwk 4) (loads : seq (ntwk 1))
    (zl : seq (seq T)) (noise : option Noise)
    (comp0 comp0' comp comp' : ntwk 4) (g0 g g' : globals Hz T) :
  frequency comp0' = frequency comp0 ->
  size (s comp0') = size (s comp0) -> size (z0 comp0') = size (z0 comp0) ->
  run_loop tk dut loads zl noise (port_combos 4) comp0 g0 = (Ok comp, g) ->
  run_loop tk dut loads zl noise (port_combos 4) comp0' g0 = (Ok comp', g') ->
  [/\ comp' = comp, frequency comp = frequency comp0
    & size (s comp) = size (s comp0) /\ size (z0 comp) = size (z0 comp0)].
Proof.
move=> Ef Es Ez H H'; have Eg := run_loop_same_globals H H'.
have [[F S Z] _ cS _ zS] := run_loop_cells port_combos4_uniq H.
have [[F' S' Z'] _ cS' _ zS'] := run_loop_cells port_combos4_uniq H'.
split=> //.
case: comp comp' F S Z F' S' Z' cS zS cS' zS' {H H'}
  => f a z [f' a' z'] /= F S Z F' S' Z' cS zS cS' zS'.
have -> : f' = f by rewrite F' Ef F.
have -> : a' = a.
  apply: eq_cols => [|x y]; first by rewrite S' Es S.
  have [p Ep] := last_writer4 x y.
  have [k [l [r [Ekl Dr Ar]]]] := cS x y p Ep.
  have [k' [l' [r' [Ekl' Dr' Ar']]]] := cS' x y p Ep.
  move: Ekl' Dr' Ar'; rewrite Ekl -Eg => -[<- <-]; rewrite Dr => -[<-].
  by rewrite Es Ar => -[].
have -> // : z' = z.
apply: eq_zcols => [|x]; first by rewrite Z' Ez Z.
have [p Ep] := last_writer4 x x.
have [k [l [r [Ekl Dr Ar]]]] := zS x p Ep.
have [k' [l' [r' [Ekl' Dr' Ar']]]] := zS' x p Ep.
move: Ekl' Dr' Ar'; rewrite Ekl -Eg => -[<- <-]; rewrite Dr => -[<-].
by rewrite Ez Ar => -[].
Qed.

(** X13: the loop needs the load of port 2 for its first measurement: with
    two loads or fewer the composer stops there with [IndexError], before
    any connection, and the dictionaries stay empty. *)
Theorem composer_too_few_loads (dut : ntwk 4) (loads : seq (ntwk 1)) :
  size loads <= 2 -> is_ok (z_loads_of tk loads) ->
  composer tk fifty dut loads = (Err IndexError, Globals [::] [::]).
Proof.
move=> sl; rewrite /composer; case: (z_loads_of _ _) => // zl _.
rewrite -/(port_combos 4) port_combos4 /= /body /= /raw_measurement /=.
by case: loads sl => [|l0 [|l1 [|l2 ?]]].
Qed.

Lemma mapM_cat (X U : Type) (h : X -> result U) (xs ys : seq X) (zs : seq U) :
  mapM h (xs ++ ys) = Ok zs ->
  exists us vs, [/\ mapM h xs = Ok us, mapM h ys = Ok vs & zs = us ++ vs].
Proof.
elim: xs zs => [|x xs IH] zs /=; first by move=> ->; exists [::], zs.
ok_bind u Eu; ok_bind ws Ews => -[<-].
have [us [vs [E1 E2 ->]]] := IH _ Ews.
by exists (u :: us), vs; rewrite Eu /= E1.
Qed.

Lemma mapM_list_get (X U : Type) (h : X -> result U) (xs : seq X)
    (ys : seq U) (i : nat) (y : U) :
  mapM h xs = Ok ys -> list_get ys i = Ok y ->
  exists2 x, list_get xs i = Ok x & h x = Ok y.
Proof.
rewrite /list_get.
elim: xs ys i => [|x xs IH] ys i /=; first by case=> <-; case: i.
ok_bind u Eu; ok_bind us Eus => -[<-].
case: i => [|i] /=; first by case=> <-; exists x.
exact: IH Eus.
Qed.

Lemma z_loads_of_ok (loads : seq (ntwk 1)) (zl : seq (seq T)) :
  z_loads_of tk loads = Ok zl -> mapM (z_flatten tk) loads = Ok zl.
Proof.
rewrite /z_loads_of; case: (mapM _ _) => [cols|e] //=.
by case: cols => [|c0 rest] //; case: ifP.
Qed.

(** X15: the impedances a measurement is renormalized to. For the pair
    [(a, b)], port 0 of the 2-port goes to the impedance of [loads[a]] and
    port 1 to the impedance of [loads[b]], each being the flattened [z] of
    that load, frequency point by frequency point. *)
Theorem renormalization_targets (loads : seq (ntwk 1)) (zl : seq (seq T))
    (tp tp' : ntwk 2) (a b : nat) :
  z_loads_of tk loads = Ok zl ->
  renormalized tk zl tp a b = Ok tp' ->
  exists La Lb z_new,
    [/\ list_get loads a = Ok La, list_get loads b = Ok Lb,
        z_flatten tk La = Ok (zcol z_new ord0),
        z_flatten tk Lb = Ok (zcol z_new (lift ord0 ord0))
      & ntwk_renormalize tk tp z_new = Ok tp'].
Proof.
move/z_loads_of_ok=> Hm; rewrite /renormalized.
ok_bind za Ea; ok_bind zb Eb; ok_bind zn Ec => Hr.
have [La GA FA] := mapM_list_get Hm Ea.
have [Lb GB FB] := mapM_list_get Hm Eb.
exists La, Lb, zn; split=> //.
- rewrite FA; congr Ok; move: Ec; rewrite /c_; case: eqP => // sz [<-].
  rewrite /zcol -map_comp -[LHS](@unzip1_zip _ _ za zb) ?sz //.
  by apply: eq_map => xy /=; rewrite mxE.
- rewrite FB; congr Ok; move: Ec; rewrite /c_; case: eqP => // sz [<-].
  rewrite /zcol -map_comp -[LHS](@unzip2_zip _ _ za zb) ?sz //.
  by apply: eq_map => xy /=; rewrite mxE.
Qed.

Lemma run_loop_ext (dut : ntwk 4) (loads loads' : seq (ntwk 1))
    (zl zl' : seq (seq T)) (noise : option Noise) (combos : seq (seq nat))
    (comp : ntwk 4) (g : globals Hz T) :
  (forall ab c h, ab \in combos ->
     body tk dut loads' zl' noise c h ab = body tk dut loads zl noise c h ab) ->
  run_loop tk dut loads' zl' noise combos comp g
  = run_loop tk dut loads zl noise combos comp g.
Proof.
elim: combos comp g => [|ab rest IH] comp g H //=.
rewrite H ?mem_head //; case: (body _ _ _ _ _ _ _ _) => [[c1|e] g1] //.
by apply: IH => p c h pin; apply: H; rewrite inE pin orbT.
Qed.

(** X14: only the first four loads are used. When the list of loads goes on
    after the fourth, and the impedances of all of them can be put in one
    array, the composer returns what it returns for the first four alone. *)
Theorem composer_extra_loads (dut : ntwk 4) (loads extra : seq (ntwk 1)) :
  size loads = 4 -> is_ok (z_loads_of tk (loads ++ extra)) ->
  composer tk fifty dut (loads ++ extra) = composer tk fifty dut loads.
Proof.
move=> sl; rewrite /composer.
case E: (z_loads_of tk (loads ++ extra)) => [zl'|] // _.
have Hm := z_loads_of_ok E.
have [us [vs [Eu Ev Ezl]]] := mapM_cat Hm.
have su := mapM_size Eu; rewrite sl in su.
have -> : z_loads_of tk loads = Ok us.
  move: E; rewrite /z_loads_of Hm Eu Ezl /=.
  case: us su {Hm Eu Ezl} => [|c0 rest] //= _.
  by rewrite all_cat; case: (all _ rest).
rewrite -/(port_combos 4) (@run_loop_ext dut loads _ us) // Ezl.
case: loads sl {E Hm Eu} => [|l0 [|l1 [|l2 [|l3 [|? ?]]]]] // _.
case: us su {Ezl} => [|u0 [|u1 [|u2 [|u3 [|? ?]]]]] // _.
move=> ab c h; case: ab => [|a [|b [|? ?]]] //;
  move: a b; apply: combos4_ind => //.
all: rewrite /body /raw_measurement /renormalized /=.
all: case: (rf_connect _ _ _ _ _) => [three_port|?] //=.
all: by case: (rf_connect _ _ _ _ _) => [two_port|?].
Qed.

Lemma last_writer_pair (x y : 'I_4) :
  x < y -> last_writer (port_combos 4) x y = Some [:: val x; val y]
        /\ last_writer (port_combos 4) y x = Some [:: val x; val y].
Proof.
by case: x => [[|[|[|[|x]]]] Hx] //; case: y => [[|[|[|[|y]]]] Hy].
Qed.

(** X16: the transmission entries of the composite. After a loop that ran
    through, for two ports [x < y] the cells [(x, y)] and [(y, x)] hold the
    entries [(0, 1)] and [(1, 0)] of the renormalized measurement of the
    pair [(x, y)], the only pair that assigns them. *)
Theorem transmission_cells (dut : ntwk 4) (loads : seq (ntwk 1))
    (zl : seq (seq T)) (noise : option Noise) (comp0 comp : ntwk 4)
    (g0 g : globals Hz T) (x y : 'I_4) :
  x < y ->
  run_loop tk dut loads zl noise (port_combos 4) comp0 g0 = (Ok comp, g) ->
  exists r,
    [/\ dict_get (measured_renorm g) (val x, val y) = Some r,
        assign (size (s comp0)) (col (s r) ord0 (lift ord0 ord0))
        = Ok (col (s comp) x y)
      & assign (size (s comp0)) (col (s r) (lift ord0 ord0) ord0)
        = Ok (col (s comp) y x)].
Proof.
move=> xy /(run_loop_cells port_combos4_uniq)[_ _ cS _ _].
have [Exy Eyx] := last_writer_pair xy.
have ne : val x != val y by rewrite ltn_eqF.
have [a [b [r [[<- <-] Dr Ar]]]] := cS x y _ Exy.
have [a' [b' [r' [[<- <-]]]]] := cS y x _ Eyx; rewrite Dr => -[<-] Ar'.
by exists r; split=> //; [move: Ar | move: Ar']; rewrite pos2_a pos2_b.
Qed.

End LoopExtras.

(** ** The keys of the dictionaries *)

Section KeyFormat.

Lemma fmt_i_digit (a : nat) :
  a < 10 -> exists c, fmt_i a = String.String c String.EmptyString.
Proof. by do 10?[case: a => [|a]; first by eexists]. Qed.

Lemma fmt_i_inj (a a' : nat) : a < 10 -> a' < 10 -> fmt_i a = fmt_i a' -> a = a'.
Proof.
by do 10?[case: a => [|a]] => //;  do 10?[case: a' => [|a']].
Qed.

(** X17: the key ['%i%i' % (a, b)] of the dictionaries. For ports below 10
    the key has two characters, it determines the pair [(a, b)], and it
    starts with ['0'] exactly when [a] is port 0. *)
Theorem key_of_pair (a b : nat) :
  a < 10 -> b < 10 ->
  [/\ String.length (key a b) = 2, starts_with_0 (key a b) = (a == 0)
    & forall a' b', a' < 10 -> b' < 10 ->
        key a b = key a' b' -> (a, b) = (a', b')].
Proof.
move=> a10 b10.
have [c Ec] := fmt_i_digit a10; have [d Ed] := fmt_i_digit b10.
split.
- by rewrite /key Ec Ed.
- by move: a10 {Ec}; do 10?[case: a => [|a] //].
move=> a' b' a10' b10'.
have [c' Ec'] := fmt_i_digit a10'; have [d' Ed'] := fmt_i_digit b10'.
rewrite /key Ec Ed Ec' Ed' /= => -[Ecc Edd].
congr (_, _); apply: fmt_i_inj => //; first by rewrite Ec Ec' Ecc.
by rewrite Ed Ed' Edd.
Qed.

Lemma key_of_pair_witness :
  String.length (key 0 3) = 2 /\ starts_with_0 (key 0 3) = (0 == 0).
Proof.
by have [-> -> _] := @key_of_pair 0 3 isT isT.
Defined.

End KeyFormat.

(** ** When the loop runs through *)

Section LoopTotal.

Import Ports.

Variables (Hz T Noise : Type).
Variable tk : toolkit Hz T Noise.

Notation ntwk := (network Hz T).

Lemma run_loop_total (dut : ntwk 4) (loads : seq (ntwk 1)) (zl : seq (seq T))
    (noise : option Noise) (nS nZ : nat) (combos : seq (seq nat))
    (comp0 : ntwk 4) (g0 : globals Hz T) :
  {subset combos <= port_combos 4} ->
  (forall a b, [:: a; b] \in combos ->
     exists tp tp',
       [/\ raw_measurement tk dut loads noise a b = Ok tp,
           renormalized tk zl tp a b = Ok tp',
           (size (s tp') == nS) || (size (s tp') == 1)
         & (size (z0 tp') == nZ) || (size (z0 tp') == 1)]) ->
  size (s comp0) = nS -> size (z0 comp0) = nZ ->
  exists comp g, run_loop tk dut loads zl noise combos comp0 g0 = (Ok comp, g).
Proof.
elim: combos comp0 g0 => [|ab rest IH] comp0 g0 sub H sS sZ.
  by exists comp0, g0.
have abin : ab \in port_combos 4 by apply: sub; rewrite mem_head.
have [a [b Eab]] : exists a b, ab = [:: a; b].
  by move: abin; rewrite mem_port_combos; case: ab {sub H} => [|a [|b [|? ?]]] //;
     exists a, b.
rewrite Eab in abin sub H *.
have [tp [tp' [R N fS fZ]]] := H a b (mem_head _ _).
have [/andP[ab4 b4] ne] : a < b < 4 /\ a != b.
  by move: abin; rewrite mem_port_combos => /andP[ab' b4]; rewrite ab' b4 ltn_eqF.
have a4 : a < 4 by exact: ltn_trans ab4 b4.
have fS' : (size (s tp') == size (s comp0)) || (size (s tp') == 1)
  by rewrite sS.
have fZ' : (size (z0 tp') == size (z0 comp0)) || (size (z0 tp') == 1)
  by rewrite sZ.
have [comp1 St] := stuff_fits a4 b4 fS' fZ'.
have [_ _ [S1 Z1] _ _] := stuff_ok ne St.
have sub' : {subset rest <= port_combos 4}.
  by move=> p pin; apply: sub; rewrite inE pin orbT.
have H' : forall a' b', [:: a'; b'] \in rest ->
    exists tp tp',
      [/\ raw_measurement tk dut loads noise a' b' = Ok tp,
          renormalized tk zl tp a' b' = Ok tp',
          (size (s tp') == nS) || (size (s tp') == 1)
        & (size (z0 tp') == nZ) || (size (z0 tp') == 1)].
  by move=> a' b' pin; apply: H; rewrite inE pin orbT.
have [comp [g Hr]] := IH comp1
    (Globals (dict_set (measured g0) (a, b) tp)
             (dict_set (measured_renorm g0) (a, b) tp'))
    sub' H' (etrans S1 sS) (etrans Z1 sZ).
by exists comp, g; rewrite /= /body /= R /= N St.
Qed.

(** X18: the loop can only stop on an exception of a library call or on a
    shape that cannot be broadcast. If for each of the six pairs the two
    connections and the renormalization end, and give a 2-port with as many
    frequency points as the composite (or one point), then the loop runs
    through. *)
Theorem loop_runs_through (dut : ntwk 4) (loads : seq (ntwk 1))
    (zl : seq (seq T)) (noise : option Noise) (comp0 : ntwk 4)
    (g0 : globals Hz T) :
  (forall a b, [:: a; b] \in port_combos 4 ->
     exists tp tp',
       [/\ raw_measurement tk dut loads noise a b = Ok tp,
           renormalized tk zl tp a b = Ok tp',
           (size (s tp') == size (s comp0)) || (size (s tp') == 1)
         & (size (z0 tp') == size (z0 comp0)) || (size (z0 tp') == 1)]) ->
  exists comp g,
    run_loop tk dut loads zl noise (port_combos 4) comp0 g0 = (Ok comp, g).
Proof.
move=> H.
exact: (@run_loop_total dut loads zl noise (size (s comp0)) (size (z0 comp0))
          (port_combos 4) comp0 g0 (fun _ h => h) H (erefl _) (erefl _)).
Qed.

End LoopTotal.

(** ** More instances *)

Section MoreInstances.

Import GRing.Theory Num.Theory.
Import Skrf Ports.
Local Open Scope ring_scope.

Notation load k := (nth (no_network rat nat 1) Demo.loads k).
Notation zl := (z_cols Demo.w Demo.loads 1).
Notation g00 := (Globals [::] [::] : globals nat rat).

(** The loop of the notebook on the instance. *)
Lemma demo_run (comp0 : network nat rat 4) :
  size (s comp0) = 1%N -> size (z0 comp0) = 1%N ->
  exists comp g,
    run_loop Demo.tk Demo.dut Demo.loads zl None (port_combos 4) comp0 g00
    = (Ok comp, g).
Proof.
move=> s0 z0.
have [g [Hr _]] :=
  run_composite demo_dut_shape demo_shape demo_regular Demo.wg Demo.add_noise
    g00 s0 z0.
by eexists; exists g; exact: Hr.
Qed.

Lemma dictionaries_correspond_witness :
  exists comp g tp tp',
    [/\ run_loop Demo.tk Demo.dut Demo.loads zl None (port_combos 4)
          (matched Demo.wg 4) g00 = (Ok comp, g),
        raw_measurement Demo.tk Demo.dut Demo.loads None 1 3 = Ok tp,
        dict_get (measured g) (1, 3)%N = Some tp,
        renormalized Demo.tk zl tp 1 3 = Ok tp'
      & dict_get (measured_renorm g) (1, 3)%N = Some tp'].
Proof.
have [comp [g Hr]] := @demo_run (matched Demo.wg 4) (erefl _) (erefl _).
have [tp [tp' [R D N D']]] :=
  dictionaries_correspond (a := 1%N) (b := 3%N) (port_combos_uniq 4) Hr isT.
by exists comp, g, tp, tp'.
Defined.

Lemma s11_sets_witness :
  exists comp g,
    run_loop Demo.tk Demo.dut Demo.loads zl None (port_combos 4)
      (matched Demo.wg 4) g00 = (Ok comp, g)
    /\ keys (measured g)
       = [:: (0, 1); (0, 2); (0, 3); (1, 2); (1, 3); (2, 3)]%N
    /\ size (s11_set (measured g)) = 3%N.
Proof.
have [comp [g Hr]] := @demo_run (matched Demo.wg 4) (erefl _) (erefl _).
have [K _ M _] := s11_sets Hr.
exists comp, g; split; [exact: Hr | split; first exact: K].
by rewrite (mapM_size M).
Defined.

Lemma tippits_globals_witness :
  exists2 more,
    keys (measured (tippits Demo.tk 50 Demo.dut 0 None g00).2)
    = keys (measured g00) ++ more
    & all (fun k => [:: k.1; k.2] \in port_combos 4) more.
Proof.
by have [] := tippits_globals
  (surjective_pairing (tippits Demo.tk 50 Demo.dut 0 None g00)).
Defined.

Lemma renorm_keys_in_measured_witness :
  exists comp g,
    run_loop Demo.tk Demo.dut Demo.loads zl None (port_combos 4)
      (matched Demo.wg 4) g00 = (Ok comp, g)
    /\ {subset keys (measured_renorm g) <= keys (measured g)}.
Proof.
have [comp [g Hr]] := @demo_run (matched Demo.wg 4) (erefl _) (erefl _).
exists comp, g; split; first exact: Hr.
exact: (@renorm_keys_in_measured _ _ _ _ _ _ _ _ _ _ g00 _ _ (fun _ h => h) Hr).
Defined.

Lemma composite_overwritten_witness :
  exists comp g comp' g',
    [/\ run_loop Demo.tk Demo.dut Demo.loads zl None (port_combos 4)
          (matched Demo.wg 4) g00 = (Ok comp, g),
        run_loop Demo.tk Demo.dut Demo.loads zl None (port_combos 4)
          (Network [:: 1%N] [:: 1%:M] [:: const_mx 75]) g00 = (Ok comp', g')
      & comp' = comp].
Proof.
have [comp [g Hr]] := @demo_run (matched Demo.wg 4) (erefl _) (erefl _).
have [comp' [g' Hr']] :=
  @demo_run (Network [:: 1%N] [:: 1%:M] [:: const_mx 75]) (erefl _) (erefl _).
exists comp, g, comp', g'; split; [exact: Hr | exact: Hr' |].
by have [] := @composite_overwritten _ _ _ Demo.tk Demo.dut Demo.loads zl None
  (matched Demo.wg 4) (Network [:: 1%N] [:: 1%:M] [:: const_mx 75])
  comp comp' g00 g g' (erefl _) (erefl _) (erefl _) Hr Hr'.
Defined.

Lemma composer_too_few_loads_witness :
  composer Demo.tk 50 Demo.dut [::] = (Err IndexError, g00).
Proof. exact: (@composer_too_few_loads _ _ _ Demo.tk 50 Demo.dut [::] isT isT). Defined.

Lemma transmission_cells_witness :
  exists comp g r,
    [/\ run_loop Demo.tk Demo.dut Demo.loads zl None (port_combos 4)
          (matched Demo.wg 4) g00 = (Ok comp, g),
        dict_get (measured_renorm g) (0, 1)%N = Some r
      & assign 1 (col (s r) ord0 (lift ord0 ord0))
        = Ok (col (s comp) ord0 (lift ord0 ord0))].
Proof.
have [comp [g Hr]] := @demo_run (matched Demo.wg 4) (erefl _) (erefl _).
have [r [D A _]] :=
  @transmission_cells _ _ _ _ _ _ _ _ _ _ _ _ ord0 (lift ord0 ord0) isT Hr.
by exists comp, g, r; split; [exact: Hr | exact: D | exact: A].
Defined.

Lemma demo_z_loads : z_loads_of Demo.tk Demo.loads = Ok zl.
Proof. exact: (z_loads_ok demo_shape demo_regular Demo.wg Demo.add_noise). Qed.

Lemma renormalization_targets_witness :
  exists La Lb z_new tp',
    [/\ list_get Demo.loads 0 = Ok La, list_get Demo.loads 1 = Ok Lb,
        z_flatten Demo.tk La = Ok (zcol z_new ord0),
        z_flatten Demo.tk Lb = Ok (zcol z_new (lift ord0 ord0))
      & ntwk_renormalize Demo.tk
          (raw_net Demo.w Demo.dut Demo.loads (lift ord0 (lift ord0 ord0))
             (lift ord0 (lift ord0 ord0)) 1) z_new = Ok tp'].
Proof.
have Hn := @renormalized_ok _ _ _ _ _ _ _ demo_regular Demo.wg Demo.add_noise
  (lift ord0 (lift ord0 ord0)) (lift ord0 (lift ord0 ord0)) 0%N 1%N
  isT (erefl _) (erefl _).
have [La [Lb [z_new [GA GB FA FB R]]]] :=
  renormalization_targets demo_z_loads Hn.
by exists La, Lb, z_new; eexists; split; [exact: GA | exact: GB | exact: FA
                                         | exact: FB | exact: R].
Defined.

Lemma mapM_cat_ok (X U : Type) (h : X -> result U) (xs ys : seq X)
    (us vs : seq U) :
  mapM h xs = Ok us -> mapM h ys = Ok vs -> mapM h (xs ++ ys) = Ok (us ++ vs).
Proof.
elim: xs us => [|x xs IH] us /=; first by case=> <-.
by ok_bind u Eu; ok_bind ws Ews => -[<-] Ev; rewrite Eu /= (IH _ Ews Ev).
Qed.

Lemma demo_five_loads :
  is_ok (z_loads_of Demo.tk (Demo.loads ++ [:: load 0%N])).
Proof.
have Hm := z_loads_of_ok demo_z_loads.
have [c0 E0 Ec] : exists2 c0, z_flatten Demo.tk (load 0%N) = Ok c0
                            & size c0 = 1%N.
  move: Hm; rewrite /Demo.loads /=.
  by ok_bind c0 E0; ok_bind cs Ecs => -[Ec _]; exists c0; rewrite // Ec.
have E1 : mapM (z_flatten Demo.tk) [:: load 0%N] = Ok [:: c0] by rewrite /= E0.
by rewrite /z_loads_of (mapM_cat_ok Hm E1) /= Ec.
Qed.

Lemma composer_extra_loads_witness :
  composer Demo.tk 50 Demo.dut (Demo.loads ++ [:: load 0%N])
  = composer Demo.tk 50 Demo.dut Demo.loads.
Proof.
exact: (@composer_extra_loads _ _ _ Demo.tk 50 Demo.dut Demo.loads
          [:: load 0%N] (erefl _) demo_five_loads).
Defined.

Lemma loop_runs_through_witness :
  exists comp g,
    run_loop Demo.tk Demo.dut Demo.loads zl None (port_combos 4)
      (matched Demo.wg 4) g00 = (Ok comp, g).
Proof.
apply: loop_runs_through => a b ab.
have [_ ce Ea Eb] := left_outP ab.
exists (raw_net Demo.w Demo.dut Demo.loads (left_out a b).1 (left_out a b).2 1),
       (renorm_net Demo.w Demo.dut Demo.loads (left_out a b).1 (left_out a b).2 1).
split=> //.
- exact: (raw_measurement_ok demo_dut_shape demo_shape demo_regular).
- exact: (renormalized_ok demo_regular).
Defined.

End MoreInstances.

